(** * Blocker: sweep, dispatch and purge-list hand-off

    A shallow embedding of [blocker/blocker.go] (package [blocker]):
    [SweepAndBlock], the loop of [Start], [blockSkylinks] and
    [writeToNginxCachePurger].  The store ([database.DB]), the blocking
    authority ([skyd.SkydAPI]), the file system, the clock and the context
    are external to the package; they are rendered as oracles of an
    environment record that answer from the current world. *)

From Stdlib Require Import ZArith List String Ascii Bool Lia Sorted Permutation.
Import ListNotations.

Set Implicit Arguments.

(* ------------------------------------------------------------------ *)
(** ** Constants and plain data *)

(** [skylinksChunk]: the max number of skylinks sent for blocking at once. *)
Definition skylinksChunk : nat := 100.

(** [time.Duration] is an [int64] count of nanoseconds. *)
Definition Millisecond : Z := 1000000.
Definition Second : Z := 1000 * Millisecond.
Definition Minute : Z := 60 * Second.

(** Go's [int] and [int64] arithmetic wraps around on 64 bits. *)
Definition wrap64 (z : Z) : Z := ((z + 2 ^ 63) mod 2 ^ 64 - 2 ^ 63)%Z.

(** [build.Select] picks one of three values by the release of the build. *)
Inductive Release := Dev | Testing | Standard.

Definition sleepBetweenScans (r : Release) : Z :=
  match r with
  | Dev => (10 * Second)%Z
  | Testing => (100 * Millisecond)%Z
  | Standard => Minute
  end.

Definition sleepOnErrStep : Z := (10 * Second)%Z.
Definition sleepOnErrSteps : Z := 6%Z.

(** [database.BlockedSkylink], restricted to the two fields the package
    reads.  A [time.Time] is an integer offset from the zero time, so that
    the zero value of [time.Time] is [0]. *)
Record BlockedSkylink := mkBlockedSkylink {
  Skylink : string;
  TimestampAdded : Z
}.

Definition time_Before (a b : Z) : bool := (a <? b)%Z.
Definition time_After (a b : Z) : bool := (b <? a)%Z.

(** [strings.Contains s substr]. *)
Fixpoint strings_Contains (s substr : string) : bool :=
  if String.prefix substr s then true
  else match s with
       | EmptyString => false
       | String _ s' => strings_Contains s' substr
       end.

Definition noEntriesUpdated : string := "no entries updated".

Definition newline : string := String (ascii_of_nat 10) EmptyString.

(** Writing [data] into a file whose content is [content], at byte offset
    [off]: the bytes under the written range are replaced, the file grows
    when the range passes its end. *)
Fixpoint dropString (n : nat) (s : string) : string :=
  match n, s with
  | O, _ => s
  | S _, EmptyString => EmptyString
  | S n', String _ s' => dropString n' s'
  end.

Fixpoint writeAt (off : nat) (data content : string) : string :=
  match off with
  | O => (data ++ dropString (String.length data) content)%string
  | S off' =>
      match content with
      | EmptyString => String zero (writeAt off' data EmptyString)
      | String c rest => String c (writeAt off' data rest)
      end
  end.

(* ------------------------------------------------------------------ *)
(** ** The world *)

Inductive Syscall :=
| SysMkdir
| SysRemove
| SysOpenFile
| SysWriteString (s : string)
| SysSync
| SysClose.

Inductive Level := LTrace | LDebug | LWarn | LError.

Record World := mkWorld {
  checkpoint : Z;                  (* latest block timestamp held by the store *)
  dbWrites : list Z;               (* arguments of SetLatestBlockTimestamp, oldest first *)
  skydReqs : list (list string);   (* requests received by skyd, oldest first *)
  lockDir : bool;                  (* the lock directory made by this process exists *)
  listFile : option string;        (* content of the purger list, None when absent *)
  sysCalls : list Syscall;         (* file system calls issued, oldest first *)
  logs : list (Level * string);    (* logger calls: level and format string *)
  sleeps : list Z;                 (* durations slept, oldest first *)
  polls : nat                      (* number of times the context was polled *)
}.

Definition set_checkpoint (t : Z) (w : World) : World :=
  mkWorld t (dbWrites w) (skydReqs w) (lockDir w) (listFile w)
          (sysCalls w) (logs w) (sleeps w) (polls w).
Definition add_dbWrite (t : Z) (w : World) : World :=
  mkWorld (checkpoint w) (dbWrites w ++ [t]) (skydReqs w) (lockDir w) (listFile w)
          (sysCalls w) (logs w) (sleeps w) (polls w).
Definition add_skydReq (r : list string) (w : World) : World :=
  mkWorld (checkpoint w) (dbWrites w) (skydReqs w ++ [r]) (lockDir w) (listFile w)
          (sysCalls w) (logs w) (sleeps w) (polls w).
Definition set_lockDir (b : bool) (w : World) : World :=
  mkWorld (checkpoint w) (dbWrites w) (skydReqs w) b (listFile w)
          (sysCalls w) (logs w) (sleeps w) (polls w).
Definition set_listFile (f : option string) (w : World) : World :=
  mkWorld (checkpoint w) (dbWrites w) (skydReqs w) (lockDir w) f
          (sysCalls w) (logs w) (sleeps w) (polls w).
Definition add_sysCall (c : Syscall) (w : World) : World :=
  mkWorld (checkpoint w) (dbWrites w) (skydReqs w) (lockDir w) (listFile w)
          (sysCalls w ++ [c]) (logs w) (sleeps w) (polls w).
Definition add_log (l : Level) (s : string) (w : World) : World :=
  mkWorld (checkpoint w) (dbWrites w) (skydReqs w) (lockDir w) (listFile w)
          (sysCalls w) (logs w ++ [(l, s)]) (sleeps w) (polls w).
Definition add_sleep (d : Z) (w : World) : World :=
  mkWorld (checkpoint w) (dbWrites w) (skydReqs w) (lockDir w) (listFile w)
          (sysCalls w) (logs w) (sleeps w ++ [d]) (polls w).
Definition add_poll (w : World) : World :=
  mkWorld (checkpoint w) (dbWrites w) (skydReqs w) (lockDir w) (listFile w)
          (sysCalls w) (logs w) (sleeps w) (S (polls w)).

(** State passing over the world. *)
Definition M (A : Type) : Type := World -> A * World.

Definition ret {A} (a : A) : M A := fun w => (a, w).
Definition bind {A B} (m : M A) (k : A -> M B) : M B :=
  fun w => let (a, w') := m w in k a w'.

Declare Scope blocker_scope.
Delimit Scope blocker_scope with blocker.
Notation "x <- m ;; k" := (bind m (fun x => k))
  (at level 61, m at next level, right associativity) : blocker_scope.
Notation "m ;; k" := (bind m (fun _ => k))
  (at level 61, right associativity) : blocker_scope.
Open Scope blocker_scope.

Definition logf (l : Level) (s : string) : M unit := fun w => (tt, add_log l s w).

(* ------------------------------------------------------------------ *)
(** ** The environment *)

(** What the package calls but does not define.  Each oracle answers from
    the world as it is at the call, so that an answer may depend on
    everything that happened before (the requests already received, the
    number of polls, ...).  A result [None] is Go's [nil] error. *)
Record Env (error : Type) := mkEnv {
  db_SkylinksToBlock : World -> list BlockedSkylink * option error;
  db_SetLatestBlockTimestamp : World -> Z -> option error;
  skyd_BlockSkylinks : World -> list string -> option error;
  os_Mkdir : World -> option error;
  os_Remove : World -> option error;
  os_OpenFile : World -> option error;
  file_WriteString : World -> string -> option error;
  file_Sync : World -> option error;
  file_Close : World -> option error;
  ctx_Done : World -> bool;
  time_Now : World -> Z
}.

(** [sort.Slice] with the comparison of [SweepAndBlock]: ascending
    [TimestampAdded].  It is rendered as an insertion sort; the results
    below use only that its output is sorted and holds the same items. *)
Fixpoint insertByTime (x : BlockedSkylink) (l : list BlockedSkylink)
  : list BlockedSkylink :=
  match l with
  | [] => [x]
  | y :: l' =>
      if time_Before (TimestampAdded y) (TimestampAdded x)
      then y :: insertByTime x l'
      else x :: y :: l'
  end.

Fixpoint sortSlice (l : list BlockedSkylink) : list BlockedSkylink :=
  match l with
  | [] => []
  | x :: l' => insertByTime x (sortSlice l')
  end.

(** The slices [skylinksToBlock[idx:end]] of the loop
    [for idx := 0; idx < len; idx += skylinksChunk].  The recursion is on a
    bound that the length of the list always covers (see [concat_chunks]). *)
Fixpoint chunksFrom {A} (bound : nat) (l : list A) : list (list A) :=
  match bound, l with
  | _, [] => []
  | O, _ :: _ => []
  | S b, _ :: _ => firstn skylinksChunk l :: chunksFrom b (skipn skylinksChunk l)
  end.

Definition chunks {A} (l : list A) : list (list A) := chunksFrom (List.length l) l.

Section Blocker.

(** Go's [error] values and the two functions of
    [gitlab.com/NebulousLabs/errors] the package uses on them. *)
Variable error : Type.
Variable Error : error -> string.                       (* err.Error() *)
Variable Contains_ErrNoDocumentsFound : error -> bool.  (* errors.Contains(err, database.ErrNoDocumentsFound) *)
Variable AddContext : error -> string -> error.         (* errors.AddContext(err, s) *)

Variable release : Release.
Variable env : Env error.

Definition errors_Contains_NoDocs (err : option error) : bool :=
  match err with
  | Some e => Contains_ErrNoDocumentsFound e
  | None => false
  end.

(** [errors.AddContext] on a possibly nil error: nil stays nil. *)
Definition errors_AddContext (err : option error) (s : string) : option error :=
  match err with
  | Some e => Some (AddContext e s)
  | None => None
  end.

(** [err != nil && !strings.Contains(err.Error(), "no entries updated")] *)
Definition notTolerated (err : option error) : bool :=
  match err with
  | Some e => negb (strings_Contains (Error e) noEntriesUpdated)
  | None => false
  end.

(** *** Calls into the environment *)

Definition dbSkylinksToBlock : M (list BlockedSkylink * option error) :=
  fun w => (db_SkylinksToBlock env w, w).

Definition dbSetLatestBlockTimestamp (t : Z) : M (option error) :=
  fun w =>
    match db_SetLatestBlockTimestamp env w t with
    | Some e => (Some e, add_dbWrite t w)
    | None => (None, set_checkpoint t (add_dbWrite t w))
    end.

Definition skydBlockSkylinks (sls : list string) : M (option error) :=
  fun w => (skyd_BlockSkylinks env w sls, add_skydReq sls w).

(** [os.Mkdir] of the lock directory.  Whether the directory is already
    there (the consumer holds the lock) is part of the oracle's answer. *)
Definition osMkdir : M (option error) :=
  fun w =>
    match os_Mkdir env w with
    | Some e => (Some e, add_sysCall SysMkdir w)
    | None => (None, set_lockDir true (add_sysCall SysMkdir w))
    end.

Definition osRemove : M (option error) :=
  fun w =>
    match os_Remove env w with
    | Some e => (Some e, add_sysCall SysRemove w)
    | None => (None, set_lockDir false (add_sysCall SysRemove w))
    end.

(** [os.OpenFile(path, os.O_RDWR|os.O_CREATE, 0644)]: the file is made,
    empty, when it is absent; the handle starts at offset 0. *)
Definition osOpenFile : M (option error) :=
  fun w =>
    match os_OpenFile env w with
    | Some e => (Some e, add_sysCall SysOpenFile w)
    | None =>
        (None,
         match listFile w with
         | Some _ => add_sysCall SysOpenFile w
         | None => set_listFile (Some EmptyString) (add_sysCall SysOpenFile w)
         end)
    end.

Definition fileContent (w : World) : string :=
  match listFile w with
  | Some c => c
  | None => EmptyString
  end.

(** [f.WriteString(data)] on a handle at offset [off]; a write that fails
    leaves the file as it was. *)
Definition fileWriteString (off : nat) (data : string) : M (option error) :=
  fun w =>
    match file_WriteString env w data with
    | Some e => (Some e, add_sysCall (SysWriteString data) w)
    | None =>
        (None,
         set_listFile (Some (writeAt off data (fileContent w)))
                      (add_sysCall (SysWriteString data) w))
    end.

Definition fileSync : M (option error) :=
  fun w => (file_Sync env w, add_sysCall SysSync w).

Definition fileClose : M (option error) :=
  fun w => (file_Close env w, add_sysCall SysClose w).

Definition ctxDone : M bool :=
  fun w => (ctx_Done env w, add_poll w).

Definition timeNow : M Z := fun w => (time_Now env w, w).

Definition timeSleep (d : Z) : M unit := fun w => (tt, add_sleep d w).

(** *** writeToNginxCachePurger *)

(** The loop [for i := 0; i < 3; i++] that makes the lock directory. *)
Fixpoint acquireLock (attempts : nat) (lockErr : option error) : M (option error) :=
  match attempts with
  | O => ret lockErr
  | S n =>
      e <- osMkdir ;;
      match e with
      | None => ret None
      | Some _ =>
          logf LWarn "failed to acquire nginx lock" ;;
          timeSleep Second ;;
          acquireLock n e
      end
  end.

(** The deferred release of the lock. *)
Definition releaseLock : M unit :=
  err <- osRemove ;;
  match err with
  | Some _ => logf LError "failed to release nginx lock, err %v"
  | None => ret tt
  end.

(** The deferred sync and close of the file. *)
Definition syncAndClose : M unit :=
  e1 <- fileSync ;;
  e2 <- fileClose ;;
  match e1, e2 with
  | None, None => ret tt
  | _, _ => logf LWarn "Failed to sync and close nginx cache purger list: %s"
  end.

(** The loop [for _, s := range sls] over a handle at offset [off]. *)
Fixpoint writeLines (off : nat) (sls : list string) : M (option error) :=
  match sls with
  | [] => ret None
  | s :: rest =>
      err <- fileWriteString off (s ++ newline)%string ;;
      match err with
      | Some e => ret (Some e)
      | None => writeLines (off + String.length (s ++ newline)%string) rest
      end
  end.

Definition writeToNginxCachePurger (sls : list string) : M (option error) :=
  err <- acquireLock 3 None ;;
  match err with
  | Some _ => ret (errors_AddContext err "failed to acquire nginx lock")
  | None =>
      r <- (err <- osOpenFile ;;
            match err with
            | Some e => ret (Some e)
            | None =>
                r <- writeLines 0 sls ;;
                syncAndClose ;;
                ret r
            end) ;;
      releaseLock ;;
      ret r
  end.

(** *** blockSkylinks *)

Definition blockSkylinks (sls : list string) : M (option error) :=
  err <- writeToNginxCachePurger sls ;;
  match err with
  | Some _ => logf LWarn "Failed to write to nginx cache purger's list: %s"
  | None => ret tt
  end ;;
  err <- skydBlockSkylinks sls ;;
  match err with
  | Some _ => ret (errors_AddContext err "block skylinks failed")
  | None => ret None
  end.

(** *** SweepAndBlock *)

Definition emptySkylinkWarning : string :=
  "SkylinksToBlock returned a record with an empty skylink. Record: %+v".

(** The loop [for _, sl := range chunk].  [None] is the [return nil] taken
    when the context is done; otherwise the collected [block] and
    [latestTimestamp]. *)
Fixpoint collect (chunk : list BlockedSkylink) (block : list string)
         (latestTimestamp : Z) : M (option (list string * Z)) :=
  match chunk with
  | [] => ret (Some (block, latestTimestamp))
  | sl :: rest =>
      done <- ctxDone ;;
      if done then ret None
      else if String.eqb (Skylink sl) EmptyString then
        logf LWarn emptySkylinkWarning ;;
        collect rest block latestTimestamp
      else
        collect rest (block ++ [Skylink sl])
                (if time_After (TimestampAdded sl) latestTimestamp
                 then TimestampAdded sl else latestTimestamp)
  end.

(** The loop over the chunks.  [Some r] is a [return r] from inside the
    loop, [None] means that the loop ran to its end. *)
Fixpoint sweepChunks (chs : list (list BlockedSkylink)) : M (option (option error)) :=
  match chs with
  | [] => ret None
  | chunk :: rest =>
      logf LTrace "SweepAndBlock will block chunk: %+v" ;;
      c <- collect chunk [] 0%Z ;;
      match c with
      | None => ret (Some None)
      | Some (block, latestTimestamp) =>
          err <- blockSkylinks block ;;
          if notTolerated err then
            logf LTrace "SweepAndBlock failed to block with error %s" ;;
            ret (Some (errors_AddContext err "failed to block skylinks list"))
          else
            err <- dbSetLatestBlockTimestamp latestTimestamp ;;
            if notTolerated err then
              logf LTrace "SweepAndBlock failed to update timestamp: %s" ;;
              ret (Some err)
            else sweepChunks rest
      end
  end.

Definition SweepAndBlock : M (option error) :=
  r <- dbSkylinksToBlock ;;
  let (skylinksToBlock, err) := r in
  if errors_Contains_NoDocs err then
    now <- timeNow ;;
    dbSetLatestBlockTimestamp now
  else
    match err with
    | Some e => ret (Some e)
    | None =>
        logf LTrace "SweepAndBlock will block all these: %+v" ;;
        r <- sweepChunks (chunks (sortSlice skylinksToBlock)) ;;
        match r with
        | Some res => ret res
        | None =>
            now <- timeNow ;;
            err <- dbSetLatestBlockTimestamp now ;;
            if notTolerated err then
              logf LTrace "SweepAndBlock failed to update timestamp: %s" ;;
              ret err
            else ret None
        end
    end.

(** *** Start *)

(** The two variables of the loop of [Start]. *)
Record LoopState := mkLoopState {
  sleepLength : Z;
  numSubsequentErrs : Z
}.

Definition initialLoopState : LoopState := mkLoopState 0 0.

(** The [if / else if / else] on the result of the sweep. *)
Definition afterSweep (err : option error) (st : LoopState) : LoopState :=
  if errors_Contains_NoDocs err then
    mkLoopState (sleepBetweenScans release) 0
  else
    match err with
    | Some _ =>
        let n := wrap64 (numSubsequentErrs st + 1) in
        let n := if (n >? sleepOnErrSteps)%Z then sleepOnErrSteps else n in
        mkLoopState (wrap64 (sleepOnErrStep * n)) n
    | None =>
        mkLoopState (sleepBetweenScans release) 0
    end.

(** One turn of the loop: [None] when the context is done (the goroutine
    returns), otherwise the state for the next turn. *)
Definition loopTurn (st : LoopState) : M (option LoopState) :=
  done <- ctxDone ;;
  if done then ret None
  else
    timeSleep (sleepLength st) ;;
    err <- SweepAndBlock ;;
    match err with
    | Some _ => logf LDebug "SweepAndBlock error: %s"
    | None => logf LDebug "SweepAndBlock ran successfully."
    end ;;
    ret (Some (afterSweep err st)).

(** The first [n] turns of the loop (it has no other exit than the
    context).  The result is the state reached, and whether the loop is
    still running. *)
Fixpoint loopTurns (n : nat) (st : LoopState) : M (LoopState * bool) :=
  match n with
  | O => ret (st, true)
  | S n' =>
      r <- loopTurn st ;;
      match r with
      | None => ret (st, false)
      | Some st' => loopTurns n' st'
      end
  end.

Definition Start (n : nat) : M (LoopState * bool) := loopTurns n initialLoopState.

End Blocker.

Arguments LoopState : clear implicits.
Arguments initialLoopState : clear implicits.

(* ------------------------------------------------------------------ *)
(** ** What a chunk contributes *)

Definition nonEmptySkylink (sl : BlockedSkylink) : bool :=
  negb (String.eqb (Skylink sl) EmptyString).

(** The identifiers a chunk sends: those of its items with a skylink. *)
Definition blockOf (chunk : list BlockedSkylink) : list string :=
  map Skylink (filter nonEmptySkylink chunk).

(** The [latestTimestamp] a chunk yields, starting from [t]. *)
Definition latestOf (chunk : list BlockedSkylink) (t : Z) : Z :=
  fold_left (fun acc sl => if time_After (TimestampAdded sl) acc
                           then TimestampAdded sl else acc)
            (filter nonEmptySkylink chunk) t.

Definition emptySkylinks (chunk : list BlockedSkylink) : nat :=
  List.length (filter (fun sl => negb (nonEmptySkylink sl)) chunk).

Definition ascending (l : list BlockedSkylink) : Prop :=
  StronglySorted (fun a b => (TimestampAdded a <= TimestampAdded b)%Z) l.

(** The requests and the store writes a computation adds to the world. *)
Definition newReqs (w w' : World) : list (list string) :=
  skipn (List.length (skydReqs w)) (skydReqs w').

Definition newWrites (w w' : World) : list Z :=
  skipn (List.length (dbWrites w)) (dbWrites w').

(* ------------------------------------------------------------------ *)
(** ** The dispatcher of the specification

    The specification describes a dispatcher that, when the authority
    rejects a batch of more than one item, splits it in two halves (floor
    and ceiling) and dispatches each half in turn.  [spec_dispatch] follows
    these words, to be compared with [blockSkylinks]: it yields the blocked
    and failed counts and the submissions in the order they are issued.
    [accepts] is the verdict of the authority on a batch. *)
Fixpoint spec_dispatch (bound : nat) (accepts : list string -> bool)
         (batch : list string) : nat * nat * list (list string) :=
  match bound with
  | O => (0, 0, [])
  | S b =>
      match batch with
      | [] => (0, 0, [])
      | _ :: _ =>
          if accepts batch then (List.length batch, 0, [batch])
          else if Nat.leb (List.length batch) 1 then (0, 1, [batch])
          else
            let h := Nat.div (List.length batch) 2 in
            let '(b1, f1, r1) := spec_dispatch b accepts (firstn h batch) in
            let '(b2, f2, r2) := spec_dispatch b accepts (skipn h batch) in
            (b1 + b2, f1 + f2, batch :: r1 ++ r2)
      end
  end.

Definition spec_halving (accepts : list string -> bool) (batch : list string)
  : nat * nat * list (list string) :=
  spec_dispatch (S (List.length batch)) accepts batch.

(* ------------------------------------------------------------------ *)
(** ** A concrete environment

    Errors are their messages.  The authority is the [mockSkyd] of the
    package's test: it rejects a request that holds ["throwerror"] and
    accepts any other.  The file system, the clock and the context never
    fail; the store answers [pending] and answers [setErr] to a write. *)
Module Mock.

Local Open Scope string_scope.

Definition error : Type := string.
Definition Error (e : error) : string := e.
Definition ErrNoDocumentsFound : error := "no documents found".
Definition Contains_ErrNoDocumentsFound (e : error) : bool :=
  strings_Contains e ErrNoDocumentsFound.
Definition AddContext (e : error) (s : string) : error :=
  s ++ ": " ++ e.
Definition unableToUpdateBlocklistErrStr : string := "unable to update blocklist".

Definition BlockSkylinks (skylinks : list string) : option error :=
  if existsb (String.eqb "throwerror") skylinks
  then Some unableToUpdateBlocklistErrStr else None.

Definition env (pending : list BlockedSkylink * option error)
           (setErr : option error) (now : Z) : Env error :=
  {| db_SkylinksToBlock := fun _ => pending;
     db_SetLatestBlockTimestamp := fun _ _ => setErr;
     skyd_BlockSkylinks := fun _ sls => BlockSkylinks sls;
     os_Mkdir := fun _ => None;
     os_Remove := fun _ => None;
     os_OpenFile := fun _ => None;
     file_WriteString := fun _ _ => None;
     file_Sync := fun _ => None;
     file_Close := fun _ => None;
     ctx_Done := fun _ => false;
     time_Now := fun _ => now |}.

(** A world in which nothing has happened yet; the store holds [t] and the
    purger list holds [file]. *)
Definition world (t : Z) (file : option string) : World :=
  mkWorld t [] [] false file [] [] [] 0.

Definition sweep pending setErr now :=
  SweepAndBlock Error Contains_ErrNoDocumentsFound AddContext (env pending setErr now).

Definition item (n : nat) : BlockedSkylink :=
  mkBlockedSkylink (String (ascii_of_nat (97 + n)) EmptyString) (Z.of_nat n).

(** Sixteen items in the order of their timestamps 1..16, the tenth being
    the one the authority rejects (the list of [testBlockSkylinks]). *)
Definition sixteen : list BlockedSkylink :=
  (map item (seq 1 9)
   ++ [mkBlockedSkylink "throwerror" 10]
   ++ map item (seq 11 6))%list.

(** A file system on which a write fails once a line has been written. *)
Definition isWrite (c : Syscall) : bool :=
  match c with
  | SysWriteString _ => true
  | _ => false
  end.

Definition failingDisk : Env error :=
  {| db_SkylinksToBlock := fun _ => ([], None);
     db_SetLatestBlockTimestamp := fun _ _ => None;
     skyd_BlockSkylinks := fun _ sls => BlockSkylinks sls;
     os_Mkdir := fun _ => None;
     os_Remove := fun _ => None;
     os_OpenFile := fun _ => None;
     file_WriteString := fun w _ =>
       if existsb isWrite (sysCalls w) then Some "no space left on device" else None;
     file_Sync := fun _ => None;
     file_Close := fun _ => None;
     ctx_Done := fun _ => false;
     time_Now := fun _ => 0%Z |}.

Definition purge (e : Env error) := writeToNginxCachePurger AddContext e.

Definition turn (r : Release) (e : Env error) :=
  loopTurn Error Contains_ErrNoDocumentsFound AddContext r e.

Definition turns (r : Release) (e : Env error) :=
  loopTurns Error Contains_ErrNoDocumentsFound AddContext r e.

(** The verdict of the authority, as the dispatcher of the specification
    takes it. *)
Definition accepts (batch : list string) : bool :=
  match BlockSkylinks batch with
  | Some _ => false
  | None => true
  end.

End Mock.

(* ------------------------------------------------------------------ *)
(** ** Notions used to state the results *)

(** [sameStore w w']: the store and the authority have seen nothing new
    between [w] and [w']. *)
Definition sameStore (w w' : World) : Prop :=
  checkpoint w' = checkpoint w
  /\ dbWrites w' = dbWrites w
  /\ skydReqs w' = skydReqs w.

Definition keepsStore {A} (m : M A) : Prop := forall w, sameStore w (snd (m w)).

(** The count of subsequent errors is within its bounds. *)
Definition errorsInBounds (st : LoopState) : Prop :=
  (0 <= numSubsequentErrs st <= sleepOnErrSteps)%Z.

Definition allTrace : string := "SweepAndBlock will block all these: %+v".

Section Turn.

Variable error : Type.
Variable Error : error -> string.
Variable AddContext : error -> string -> error.
Variable env : Env error.

#[local] Abbreviation notTolerated' := (notTolerated Error).
#[local] Abbreviation sweepChunks' := (sweepChunks Error AddContext env).

(** The error [blockSkylinks] returns for an answer of the authority. *)
Definition blockError (r : option error) : option error :=
  match r with
  | Some e => Some (AddContext e "block skylinks failed")
  | None => None
  end.

Definition chunkTrace : string := "SweepAndBlock will block chunk: %+v".
Definition blockFailedTrace : string := "SweepAndBlock failed to block with error %s".
Definition timestampFailedTrace : string := "SweepAndBlock failed to update timestamp: %s".

(** The three ways a turn ends: the context is done, the turn returns an
    error, or the loop goes on with the rest from a later world. *)
Inductive chunkTurn (chunk : list BlockedSkylink) (rest : list (list BlockedSkylink))
          (w : World) : Prop :=
| turnCancelled (w' : World) :
    fst (collect env chunk [] 0%Z (add_log LTrace chunkTrace w)) = None ->
    sweepChunks' (chunk :: rest) w = (Some None, w') ->
    sameStore w w' ->
    chunkTurn chunk rest w
| turnRejected (w1 w' : World) (e : error) :
    sameStore w w1 ->
    blockError (skyd_BlockSkylinks env w1 (blockOf chunk)) = Some e ->
    notTolerated' (Some e) = true ->
    sweepChunks' (chunk :: rest) w
    = (Some (Some (AddContext e "failed to block skylinks list")), w') ->
    skydReqs w' = skydReqs w ++ [blockOf chunk] ->
    dbWrites w' = dbWrites w ->
    checkpoint w' = checkpoint w ->
    chunkTurn chunk rest w
| turnWriteFailed (w1 w2 w' : World) :
    sameStore w w1 ->
    notTolerated' (blockError (skyd_BlockSkylinks env w1 (blockOf chunk))) = false ->
    notTolerated' (db_SetLatestBlockTimestamp env w2 (latestOf chunk 0)) = true ->
    sweepChunks' (chunk :: rest) w
    = (Some (db_SetLatestBlockTimestamp env w2 (latestOf chunk 0)), w') ->
    skydReqs w' = skydReqs w ++ [blockOf chunk] ->
    dbWrites w' = dbWrites w ++ [latestOf chunk 0] ->
    checkpoint w' = checkpoint w ->
    chunkTurn chunk rest w
| turnNext (w1 w2 w' : World) :
    sameStore w w1 ->
    notTolerated' (blockError (skyd_BlockSkylinks env w1 (blockOf chunk))) = false ->
    notTolerated' (db_SetLatestBlockTimestamp env w2 (latestOf chunk 0)) = false ->
    sweepChunks' (chunk :: rest) w = sweepChunks' rest w' ->
    skydReqs w' = skydReqs w ++ [blockOf chunk] ->
    dbWrites w' = dbWrites w ++ [latestOf chunk 0] ->
    checkpoint w' = match db_SetLatestBlockTimestamp env w2 (latestOf chunk 0) with
                    | Some _ => checkpoint w
                    | None => latestOf chunk 0
                    end ->
    chunkTurn chunk rest w.

End Turn.

(* ------------------------------------------------------------------ *)
(** ** The constructor *)

Section Constructor.

(** The four dependencies of a [Blocker] are pointers or interfaces, which
    may be nil; [errors.New] makes an error from a message. *)
Variables error Context DB Logger SkydAPI : Type.
Variable errors_New : string -> error.

Record Blocker := mkBlocker {
  staticNginxCachePurgerListPath : string;
  staticNginxCachePurgeLockPath : string;
  staticCtx : Context;
  staticDB : DB;
  staticLogger : Logger;
  staticSkydAPI : SkydAPI
}.

(** [New] returns a blocker or an error. *)
Definition New (ctx : option Context) (skydAPI : option SkydAPI) (db : option DB)
           (logger : option Logger)
           (nginxCachePurgerListPath nginxCachePurgeLockPath : string)
  : Blocker + error :=
  match ctx with
  | None => inr (errors_New "invalid context provided")
  | Some ctx' =>
      match db with
      | None => inr (errors_New "invalid DB provided")
      | Some db' =>
          match logger with
          | None => inr (errors_New "invalid logger provided")
          | Some logger' =>
              match skydAPI with
              | None => inr (errors_New "invalid Skyd API provided")
              | Some skydAPI' =>
                  inl (mkBlocker nginxCachePurgerListPath nginxCachePurgeLockPath
                                 ctx' db' logger' skydAPI')
              end
          end
      end
  end.

End Constructor.

(* ------------------------------------------------------------------ *)
(** ** Further notions and scenarios *)

(** What a computation adds to the calls, the sleeps and the log. *)
Definition newCalls (w w' : World) : list Syscall :=
  skipn (List.length (sysCalls w)) (sysCalls w').

Definition newSleeps (w w' : World) : list Z :=
  skipn (List.length (sleeps w)) (sleeps w').

Definition newLogs (w w' : World) : list (Level * string) :=
  skipn (List.length (logs w)) (logs w').

(** The lines [writeToNginxCachePurger] writes for its identifiers, and
    their concatenation. *)
Definition purgerLines (sls : list string) : list string :=
  map (fun s => (s ++ newline)%string) sls.

Definition joinLines (ls : list string) : string :=
  fold_right String.append EmptyString ls.

Definition lockWarning : string := "failed to acquire nginx lock".
Definition purgerWarning : string := "Failed to write to nginx cache purger's list: %s".

(** A computation that leaves the lock directory absent when it was. *)
Definition keepsUnlocked {A} (m : M A) : Prop :=
  forall w, lockDir w = false -> lockDir (snd (m w)) = false.

(** The sleep is one the loop of [Start] can ask for. *)
Definition sleepInBounds (st : LoopState) : Prop :=
  (0 <= sleepLength st <= 60 * Second)%Z.

Module Scenario.

Local Open Scope string_scope.

(** The lock directory is held by the consumer for good. *)
Definition lockedOut : Env Mock.error :=
  {| db_SkylinksToBlock := fun _ => ([], None);
     db_SetLatestBlockTimestamp := fun _ _ => None;
     skyd_BlockSkylinks := fun _ sls => Mock.BlockSkylinks sls;
     os_Mkdir := fun _ => Some "mkdir: file exists";
     os_Remove := fun _ => None;
     os_OpenFile := fun _ => None;
     file_WriteString := fun _ _ => None;
     file_Sync := fun _ => None;
     file_Close := fun _ => None;
     ctx_Done := fun _ => false;
     time_Now := fun _ => 0%Z |}.

(** The context is done from the start; the store has [pending]. *)
Definition cancelled (pending : list BlockedSkylink) : Env Mock.error :=
  {| db_SkylinksToBlock := fun _ => (pending, None);
     db_SetLatestBlockTimestamp := fun _ _ => None;
     skyd_BlockSkylinks := fun _ sls => Mock.BlockSkylinks sls;
     os_Mkdir := fun _ => None;
     os_Remove := fun _ => None;
     os_OpenFile := fun _ => None;
     file_WriteString := fun _ _ => None;
     file_Sync := fun _ => None;
     file_Close := fun _ => None;
     ctx_Done := fun _ => true;
     time_Now := fun _ => 0%Z |}.

(** The authority and the store answer "no entries updated" to everything;
    the store has [pending] and the clock shows [now]. *)
Definition nothingUpdated (pending : list BlockedSkylink) (now : Z) : Env Mock.error :=
  {| db_SkylinksToBlock := fun _ => (pending, None);
     db_SetLatestBlockTimestamp := fun _ _ => Some noEntriesUpdated;
     skyd_BlockSkylinks := fun _ _ => Some noEntriesUpdated;
     os_Mkdir := fun _ => None;
     os_Remove := fun _ => None;
     os_OpenFile := fun _ => None;
     file_WriteString := fun _ _ => None;
     file_Sync := fun _ => None;
     file_Close := fun _ => None;
     ctx_Done := fun _ => false;
     time_Now := fun _ => now |}.

(** Three items, the second without skylink. *)
Definition three : list BlockedSkylink :=
  [Mock.item 3; mkBlockedSkylink EmptyString 2; Mock.item 1].

Definition sweepIn (e : Env Mock.error) :=
  SweepAndBlock Mock.Error Mock.Contains_ErrNoDocumentsFound Mock.AddContext e.

Definition dispatchIn (e : Env Mock.error) := blockSkylinks Mock.AddContext e.

End Scenario.

(* ------------------------------------------------------------------ *)
(** ** Sorting and chunking *)

Lemma insertByTime_perm (x : BlockedSkylink) (l : list BlockedSkylink) :
  Permutation (insertByTime x l) (x :: l).
Proof.
  induction l as [|y l IH]; simpl.
  - apply Permutation_refl.
  - destruct (time_Before (TimestampAdded y) (TimestampAdded x)).
    + rewrite IH. apply perm_swap.
    + apply Permutation_refl.
Qed.

Lemma sortSlice_perm (l : list BlockedSkylink) : Permutation (sortSlice l) l.
Proof.
  induction l as [|x l IH]; simpl.
  - constructor.
  - rewrite insertByTime_perm. now constructor.
Qed.

Lemma insertByTime_ascending (x : BlockedSkylink) (l : list BlockedSkylink) :
  ascending l -> ascending (insertByTime x l).
Proof.
  unfold ascending.
  induction l as [|y l IH]; simpl; intros Hs.
  - repeat constructor.
  - apply StronglySorted_inv in Hs. destruct Hs as [Hl Hy].
    unfold time_Before.
    destruct (Z.ltb_spec (TimestampAdded y) (TimestampAdded x)) as [Hlt|Hge].
    + constructor; [now apply IH|].
      eapply Permutation_Forall.
      * apply Permutation_sym, insertByTime_perm.
      * constructor; [lia | exact Hy].
    + constructor.
      * constructor; assumption.
      * constructor; [lia|].
        eapply Forall_impl; [|exact Hy]. simpl. intros; lia.
Qed.

Lemma sortSlice_ascending (l : list BlockedSkylink) : ascending (sortSlice l).
Proof.
  induction l as [|x l IH]; simpl.
  - constructor.
  - now apply insertByTime_ascending.
Qed.

Lemma ascending_app_l (l1 l2 : list BlockedSkylink) :
  ascending (l1 ++ l2) -> ascending l1.
Proof.
  unfold ascending. induction l1 as [|x l1 IH]; simpl; intros Hs.
  - constructor.
  - apply StronglySorted_inv in Hs. destruct Hs as [Hl Hx].
    constructor; [now apply IH|].
    apply Forall_app in Hx. tauto.
Qed.

Lemma ascending_filter (f : BlockedSkylink -> bool) (l : list BlockedSkylink) :
  ascending l -> ascending (filter f l).
Proof.
  unfold ascending. induction l as [|x l IH]; simpl; intros Hs.
  - constructor.
  - apply StronglySorted_inv in Hs. destruct Hs as [Hl Hx].
    destruct (f x); [|now apply IH].
    constructor; [now apply IH|].
    rewrite Forall_forall in *. intros y Hy.
    apply Hx. apply filter_In in Hy. tauto.
Qed.

Lemma chunksFrom_cons {A} (b : nat) (a : A) (l : list A) :
  chunksFrom (S b) (a :: l)
  = firstn skylinksChunk (a :: l) :: chunksFrom b (skipn skylinksChunk (a :: l)).
Proof. reflexivity. Qed.

Lemma concat_chunksFrom {A} (bound : nat) (l : list A) :
  List.length l <= bound -> List.concat (chunksFrom bound l) = l.
Proof.
  revert l. induction bound as [|b IH]; intros [|a l] Hl;
    try reflexivity; try (simpl in Hl; lia).
  rewrite chunksFrom_cons, concat_cons, IH.
  - apply firstn_skipn.
  - rewrite length_skipn. unfold skylinksChunk. simpl in *. lia.
Qed.

Lemma concat_chunks {A} (l : list A) : List.concat (chunks l) = l.
Proof. apply concat_chunksFrom. lia. Qed.

Lemma chunksFrom_sizes {A} (bound : nat) (l : list A) :
  Forall (fun c => 1 <= List.length c <= skylinksChunk) (chunksFrom bound l).
Proof.
  revert l. induction bound as [|b IH]; intros [|a l];
    try (simpl; constructor; fail).
  rewrite chunksFrom_cons. constructor; [|apply IH].
  rewrite length_firstn. unfold skylinksChunk. simpl List.length. lia.
Qed.

Lemma chunks_sizes {A} (l : list A) :
  Forall (fun c => 1 <= List.length c <= skylinksChunk) (chunks l).
Proof. apply chunksFrom_sizes. Qed.

Lemma blockOf_length (chunk : list BlockedSkylink) :
  List.length (blockOf chunk) <= List.length chunk.
Proof.
  unfold blockOf. rewrite length_map. apply filter_length_le.
Qed.

Lemma blockOf_nonEmpty (chunk : list BlockedSkylink) :
  Forall (fun s => s <> EmptyString) (blockOf chunk).
Proof.
  unfold blockOf. rewrite Forall_map, Forall_forall.
  intros sl Hin. apply filter_In in Hin. destruct Hin as [_ Hne].
  unfold nonEmptySkylink in Hne. intros Heq. rewrite Heq in Hne. discriminate.
Qed.

Lemma blockOf_app (c1 c2 : list BlockedSkylink) :
  blockOf (c1 ++ c2) = blockOf c1 ++ blockOf c2.
Proof. unfold blockOf. now rewrite filter_app, map_app. Qed.

Lemma concat_map_blockOf (chs : list (list BlockedSkylink)) :
  List.concat (map blockOf chs) = blockOf (List.concat chs).
Proof.
  induction chs as [|c chs IH]; simpl; [reflexivity|].
  now rewrite blockOf_app, IH.
Qed.

Lemma In_blockOf (X : string) (chunk : list BlockedSkylink) :
  X <> EmptyString -> In X (map Skylink chunk) -> In X (blockOf chunk).
Proof.
  intros HX Hin. apply in_map_iff in Hin. destruct Hin as [sl [Hsl Hin]].
  unfold blockOf. apply in_map_iff. exists sl. split; [assumption|].
  apply filter_In. split; [assumption|].
  unfold nonEmptySkylink. rewrite Hsl.
  destruct (String.eqb_spec X EmptyString); [contradiction | reflexivity].
Qed.

(* ------------------------------------------------------------------ *)
(** ** What a computation leaves untouched *)


Lemma sameStore_refl (w : World) : sameStore w w.
Proof. repeat split. Qed.

Lemma sameStore_trans (w1 w2 w3 : World) :
  sameStore w1 w2 -> sameStore w2 w3 -> sameStore w1 w3.
Proof. unfold sameStore. intuition congruence. Qed.

Lemma keepsStore_ret {A} (a : A) : keepsStore (ret a).
Proof. intros w. apply sameStore_refl. Qed.

Lemma keepsStore_bind {A B} (m : M A) (k : A -> M B) :
  keepsStore m -> (forall a, keepsStore (k a)) -> keepsStore (bind m k).
Proof.
  intros Hm Hk w. unfold bind.
  specialize (Hm w). destruct (m w) as [a w1]. simpl in Hm.
  eapply sameStore_trans; [exact Hm | apply Hk].
Qed.

Lemma keepsStore_logf (l : Level) (s : string) : keepsStore (logf l s).
Proof. intros w. repeat split. Qed.

Create HintDb keeps.
#[local] Hint Resolve keepsStore_ret keepsStore_bind keepsStore_logf : keeps.

Ltac keeps_oracle :=
  let w := fresh "w" in
  intros w; unfold sameStore; cbn;
  repeat match goal with
         | |- context [match ?x with _ => _ end] => destruct x
         end;
  cbn; auto.

Section Facts.

Variable error : Type.
Variable Error : error -> string.
Variable Contains_ErrNoDocumentsFound : error -> bool.
Variable AddContext : error -> string -> error.
Variable release : Release.
Variable env : Env error.

#[local] Abbreviation notTolerated' := (notTolerated Error).
#[local] Abbreviation sweepChunks' := (sweepChunks Error AddContext env).
#[local] Abbreviation SweepAndBlock' := (SweepAndBlock Error Contains_ErrNoDocumentsFound AddContext env).
#[local] Abbreviation blockSkylinks' := (blockSkylinks AddContext env).
#[local] Abbreviation writeToNginxCachePurger' := (writeToNginxCachePurger AddContext env).
#[local] Abbreviation afterSweep' := (afterSweep Contains_ErrNoDocumentsFound release).
#[local] Abbreviation blockError' := (blockError AddContext).
#[local] Abbreviation chunkTurn' := (chunkTurn Error AddContext env).
#[local] Abbreviation loopTurn' := (loopTurn Error Contains_ErrNoDocumentsFound AddContext release env).
#[local] Abbreviation loopTurns' := (loopTurns Error Contains_ErrNoDocumentsFound AddContext release env).
#[local] Abbreviation Start' := (Start Error Contains_ErrNoDocumentsFound AddContext release env).


Lemma keepsStore_osMkdir : keepsStore (osMkdir env).
Proof. unfold osMkdir. keeps_oracle. Qed.

Lemma keepsStore_osRemove : keepsStore (osRemove env).
Proof. unfold osRemove. keeps_oracle. Qed.

Lemma keepsStore_osOpenFile : keepsStore (osOpenFile env).
Proof. unfold osOpenFile. keeps_oracle. Qed.

Lemma keepsStore_fileWriteString off data : keepsStore (fileWriteString env off data).
Proof. unfold fileWriteString. keeps_oracle. Qed.

Lemma keepsStore_fileSync : keepsStore (fileSync env).
Proof. unfold fileSync. keeps_oracle. Qed.

Lemma keepsStore_fileClose : keepsStore (fileClose env).
Proof. unfold fileClose. keeps_oracle. Qed.

Lemma keepsStore_ctxDone : keepsStore (ctxDone env).
Proof. unfold ctxDone. keeps_oracle. Qed.

Lemma keepsStore_timeSleep d : keepsStore (timeSleep d).
Proof. unfold timeSleep. keeps_oracle. Qed.

Hint Resolve keepsStore_osMkdir keepsStore_osRemove keepsStore_osOpenFile
     keepsStore_fileWriteString keepsStore_fileSync keepsStore_fileClose
     keepsStore_ctxDone keepsStore_timeSleep : keeps.

Lemma keepsStore_acquireLock n lockErr : keepsStore (acquireLock env n lockErr).
Proof.
  revert lockErr. induction n as [|n IH]; intros lockErr; simpl.
  - auto with keeps.
  - apply keepsStore_bind; [auto with keeps|].
    intros [e|]; auto 6 with keeps.
Qed.

Lemma keepsStore_writeLines sls : forall off, keepsStore (writeLines env off sls).
Proof.
  induction sls as [|s rest IH]; intros off; simpl.
  - auto with keeps.
  - apply keepsStore_bind; [auto with keeps|].
    intros [e|]; auto with keeps.
Qed.

Lemma keepsStore_releaseLock : keepsStore (releaseLock env).
Proof.
  unfold releaseLock. apply keepsStore_bind; [auto with keeps|].
  intros [e|]; auto with keeps.
Qed.

Lemma keepsStore_syncAndClose : keepsStore (syncAndClose env).
Proof.
  unfold syncAndClose.
  apply keepsStore_bind; [auto with keeps|]. intros e1.
  apply keepsStore_bind; [auto with keeps|]. intros e2.
  destruct e1, e2; auto with keeps.
Qed.

Hint Resolve keepsStore_acquireLock keepsStore_writeLines
     keepsStore_releaseLock keepsStore_syncAndClose : keeps.

Lemma keepsStore_writeToNginxCachePurger sls :
  keepsStore (writeToNginxCachePurger' sls).
Proof.
  unfold writeToNginxCachePurger.
  apply keepsStore_bind; [auto with keeps|].
  intros [e|]; [auto with keeps|].
  apply keepsStore_bind.
  - apply keepsStore_bind; [auto with keeps|].
    intros [e|]; auto 7 with keeps.
  - auto with keeps.
Qed.

Lemma keepsStore_collect chunk :
  forall block latest, keepsStore (collect env chunk block latest).
Proof.
  induction chunk as [|sl rest IH]; intros block latest; simpl.
  - auto with keeps.
  - apply keepsStore_bind; [auto with keeps|].
    intros [|]; [auto with keeps|].
    destruct (String.eqb (Skylink sl) EmptyString); auto with keeps.
Qed.

(** *** The loop over the items of a chunk *)

Lemma latestOf_cons_skip sl rest t :
  nonEmptySkylink sl = false -> latestOf (sl :: rest) t = latestOf rest t.
Proof. intros H. unfold latestOf. simpl. now rewrite H. Qed.

Lemma latestOf_cons_take sl rest t :
  nonEmptySkylink sl = true ->
  latestOf (sl :: rest) t
  = latestOf rest (if time_After (TimestampAdded sl) t then TimestampAdded sl else t).
Proof. intros H. unfold latestOf. simpl. now rewrite H. Qed.

Lemma collect_value chunk :
  forall block latest w b l w',
    collect env chunk block latest w = (Some (b, l), w') ->
    b = block ++ blockOf chunk
    /\ l = latestOf chunk latest
    /\ logs w' = logs w ++ repeat (LWarn, emptySkylinkWarning) (emptySkylinks chunk).
Proof.
  induction chunk as [|sl rest IH]; intros block latest w b l w' Hrun.
  - simpl in Hrun. unfold ret in Hrun. inversion Hrun; subst.
    unfold blockOf, emptySkylinks. simpl. now rewrite !app_nil_r.
  - simpl in Hrun. unfold bind, ctxDone in Hrun.
    destruct (ctx_Done env w); [discriminate|].
    unfold blockOf, emptySkylinks, nonEmptySkylink in *. simpl.
    destruct (String.eqb (Skylink sl) EmptyString) eqn:Hsl; simpl.
    + unfold logf in Hrun. apply IH in Hrun.
      destruct Hrun as [Hb [Hl Hlog]]. split; [assumption|]. split.
      * rewrite latestOf_cons_skip; [assumption|]. unfold nonEmptySkylink. now rewrite Hsl.
      * rewrite Hlog. simpl. now rewrite <- app_assoc.
    + apply IH in Hrun.
      destruct Hrun as [Hb [Hl Hlog]]. split; [|split].
      * rewrite Hb. now rewrite <- app_assoc.
      * rewrite latestOf_cons_take; [assumption|]. unfold nonEmptySkylink. now rewrite Hsl.
      * exact Hlog.
Qed.

Lemma collect_not_cancelled chunk :
  (forall w, ctx_Done env w = false) ->
  forall block latest w, fst (collect env chunk block latest w) <> None.
Proof.
  intros Hctx. induction chunk as [|sl rest IH]; intros block latest w.
  - simpl. discriminate.
  - simpl. unfold bind, ctxDone. rewrite Hctx.
    destruct (String.eqb (Skylink sl) EmptyString); [unfold logf|]; apply IH.
Qed.

Lemma collect_run chunk block latest w :
  (forall w, ctx_Done env w = false) ->
  exists w',
    collect env chunk block latest w
    = (Some (block ++ blockOf chunk, latestOf chunk latest), w')
    /\ sameStore w w'.
Proof.
  intros Hctx.
  pose proof (collect_not_cancelled chunk Hctx block latest w) as Hsome.
  pose proof (keepsStore_collect chunk block latest w) as Hkeep.
  destruct (collect env chunk block latest w) as [[[b l]|] w'] eqn:Hrun.
  - apply collect_value in Hrun. destruct Hrun as [-> [-> _]].
    exists w'. split; [reflexivity | exact Hkeep].
  - now contradiction Hsome.
Qed.

(** *** One submission and one store write *)

Lemma blockSkylinks_run sls w :
  exists w1 w',
    sameStore w w1
    /\ blockSkylinks' sls w = (blockError' (skyd_BlockSkylinks env w1 sls), w')
    /\ skydReqs w' = skydReqs w ++ [sls]
    /\ dbWrites w' = dbWrites w
    /\ checkpoint w' = checkpoint w.
Proof.
  unfold blockSkylinks, bind.
  pose proof (keepsStore_writeToNginxCachePurger sls w) as Hk.
  destruct (writeToNginxCachePurger' sls w) as [err w0]. simpl in Hk.
  set (w1 := snd ((match err with
                   | Some _ => logf LWarn "Failed to write to nginx cache purger's list: %s"
                   | None => ret tt
                   end) w0)).
  assert (Hw1 : sameStore w w1).
  { eapply sameStore_trans; [exact Hk|]. subst w1. destruct err; repeat split. }
  exists w1.
  destruct err; simpl in *; unfold skydBlockSkylinks;
    destruct (skyd_BlockSkylinks env w1 sls) eqn:Hs; subst w1; simpl in *;
    rewrite Hs; simpl; eexists; (split; [exact Hw1|]);
    (split; [reflexivity|]); simpl;
    destruct Hw1 as [Hc [Hd Hr]]; simpl in *; rewrite ?Hc, ?Hd, ?Hr; auto.
Qed.

Lemma dbSetLatestBlockTimestamp_run t w :
  exists w',
    dbSetLatestBlockTimestamp env t w = (db_SetLatestBlockTimestamp env w t, w')
    /\ dbWrites w' = dbWrites w ++ [t]
    /\ skydReqs w' = skydReqs w
    /\ checkpoint w' = match db_SetLatestBlockTimestamp env w t with
                       | Some _ => checkpoint w
                       | None => t
                       end.
Proof.
  unfold dbSetLatestBlockTimestamp.
  destruct (db_SetLatestBlockTimestamp env w t); eexists; repeat split.
Qed.

(** *** One turn of the loop over the chunks *)


Lemma sweepChunks_turn chunk rest w : chunkTurn' chunk rest w.
Proof.
  set (w0 := add_log LTrace chunkTrace w).
  assert (H0 : sameStore w w0) by (repeat split).
  pose proof (keepsStore_collect chunk [] 0%Z w0) as Hk.
  destruct (collect env chunk [] 0%Z w0) as [[[b l]|] w1] eqn:Hc; simpl in Hk.
  2:{ apply turnCancelled with (w' := w1).
      - fold w0. now rewrite Hc.
      - simpl. unfold bind at 1. unfold logf at 1. change (add_log LTrace "SweepAndBlock will block chunk: %+v" w) with w0.
        unfold bind at 1. now rewrite Hc.
      - exact (sameStore_trans H0 Hk). }
  apply collect_value in Hc as Hv. destruct Hv as [Hb [Hl _]]. simpl in Hb. subst b l.
  destruct (blockSkylinks_run (blockOf chunk) w1) as (w1' & w2 & Hs1 & Hrun & Hr2 & Hd2 & Hc2).
  assert (Hw1 : sameStore w w1) by exact (sameStore_trans H0 Hk).
  assert (Hw1' : sameStore w w1') by exact (sameStore_trans Hw1 Hs1).
  destruct Hw1 as [Hc1 [Hd1 Hr1]].
  destruct (dbSetLatestBlockTimestamp_run (latestOf chunk 0) w2)
    as (w3 & Hdb & Hd3 & Hr3 & Hc3).
  destruct (notTolerated' (blockError' (skyd_BlockSkylinks env w1' (blockOf chunk)))) eqn:Hnt.
  - destruct (skyd_BlockSkylinks env w1' (blockOf chunk)) as [e|] eqn:Hsk; [|discriminate].
    apply turnRejected with (w1 := w1') (w' := add_log LTrace blockFailedTrace w2)
                            (e := AddContext e "block skylinks failed");
      try assumption.
    + now rewrite Hsk.
    + simpl. unfold bind at 1. unfold logf at 1. change (add_log LTrace "SweepAndBlock will block chunk: %+v" w) with w0.
      unfold bind at 1. rewrite Hc. unfold bind at 1. rewrite Hrun.
      rewrite Hnt. reflexivity.
    + simpl. congruence.
    + simpl. congruence.
    + simpl. congruence.
  - assert (Hgo : sweepChunks' (chunk :: rest) w
                  = (let (err, w') := dbSetLatestBlockTimestamp env (latestOf chunk 0) w2 in
                     (if notTolerated' err
                      then (logf LTrace timestampFailedTrace ;; ret (Some err))
                      else sweepChunks' rest) w')).
    { simpl. unfold bind at 1. unfold logf at 1. change (add_log LTrace "SweepAndBlock will block chunk: %+v" w) with w0.
      unfold bind at 1. rewrite Hc. unfold bind at 1. rewrite Hrun.
      rewrite Hnt. unfold bind at 1.
      destruct (dbSetLatestBlockTimestamp env (latestOf chunk 0) w2) as [d wd].
      destruct (notTolerated' d); reflexivity. }
    rewrite Hdb in Hgo.
    destruct (notTolerated' (db_SetLatestBlockTimestamp env w2 (latestOf chunk 0))) eqn:Hdt.
    + apply turnWriteFailed with (w1 := w1') (w2 := w2)
                                 (w' := add_log LTrace timestampFailedTrace w3);
        try assumption.
      * simpl. congruence.
      * simpl. congruence.
      * simpl. rewrite Hc3.
        destruct (db_SetLatestBlockTimestamp env w2 (latestOf chunk 0)); [congruence|discriminate].
    + apply turnNext with (w1 := w1') (w2 := w2) (w' := w3); try assumption.
      * congruence.
      * congruence.
      * rewrite Hc3.
        destruct (db_SetLatestBlockTimestamp env w2 (latestOf chunk 0)); congruence.
Qed.

(** *** The whole loop over the chunks *)

Lemma skipn_length_app {A} (l l' : list A) : skipn (List.length l) (l ++ l') = l'.
Proof. induction l as [|a l IH]; simpl; auto. Qed.

Lemma last_cons_default {A} (l : list A) (x d d' : A) :
  last (x :: l) d = last (x :: l) d'.
Proof.
  revert x. induction l as [|y l IH]; intros x; [reflexivity|].
  change (last (y :: l) d = last (y :: l) d'). apply IH.
Qed.

(** Whatever the environment does, the requests of the loop are the
    blocks of the first chunks, one request for each, in order. *)
Lemma sweepChunks_reqs chs :
  forall w, exists n,
    n <= List.length chs
    /\ skydReqs (snd (sweepChunks' chs w)) = skydReqs w ++ map blockOf (firstn n chs).
Proof.
  induction chs as [|chunk rest IH]; intros w.
  - exists 0. simpl. split; [lia | now rewrite app_nil_r].
  - destruct (sweepChunks_turn chunk rest w)
      as [w' _ Hrun Hs | w1 w' e _ _ _ Hrun Hr _ _
          | w1 w2 w' _ _ _ Hrun Hr _ _ | w1 w2 w' _ _ _ Hrun Hr _ _].
    + exists 0. rewrite Hrun. simpl. destruct Hs as [_ [_ Hr]].
      split; [lia | now rewrite Hr, app_nil_r].
    + exists 1. rewrite Hrun. simpl. split; [lia | exact Hr].
    + exists 1. rewrite Hrun. simpl. split; [lia | exact Hr].
    + destruct (IH w') as [n [Hn Hreq]]. exists (S n). rewrite Hrun, Hreq, Hr. simpl.
      split; [lia | now rewrite <- app_assoc].
Qed.

(** When the context is never done and every error is tolerated, the loop
    runs to its end: every chunk is submitted and its timestamp written. *)
Lemma sweepChunks_tolerated chs :
  (forall w, ctx_Done env w = false) ->
  (forall c, In c chs ->
             forall w, notTolerated' (blockError' (skyd_BlockSkylinks env w (blockOf c))) = false) ->
  (forall w t, notTolerated' (db_SetLatestBlockTimestamp env w t) = false) ->
  forall w, exists w',
    sweepChunks' chs w = (None, w')
    /\ skydReqs w' = skydReqs w ++ map blockOf chs
    /\ dbWrites w' = dbWrites w ++ map (fun c => latestOf c 0%Z) chs.
Proof.
  intros Hctx Hsk Hdb.
  induction chs as [|chunk rest IH]; intros w.
  - exists w. simpl. now rewrite !app_nil_r.
  - destruct (sweepChunks_turn chunk rest w)
      as [w' Hc _ _ | w1 w' e _ He Hnt _ _ _ _
          | w1 w2 w' _ _ Hnt _ _ _ _ | w1 w2 w' _ _ _ Hrun Hr Hd _].
    + exfalso. revert Hc. now apply collect_not_cancelled.
    + exfalso. rewrite <- He, Hsk in Hnt; [discriminate | now left].
    + exfalso. rewrite Hdb in Hnt. discriminate.
    + destruct (IH (fun c Hin => Hsk c (or_intror Hin)) w') as [w'' [Hrun' [Hr' Hd']]].
      exists w''. rewrite Hrun, Hrun', Hr', Hd', Hr, Hd. simpl.
      now rewrite <- !app_assoc.
Qed.

(** When the authority rejects the block of chunk [c] and tolerably answers
    for the chunks before it, the loop returns at [c]: the chunks up to and
    including [c] are each submitted once, and nothing after. *)
Lemma sweepChunks_rejected pre c post e :
  (forall w, ctx_Done env w = false) ->
  (forall w t, db_SetLatestBlockTimestamp env w t = None) ->
  (forall p, In p pre ->
             forall w, notTolerated' (blockError' (skyd_BlockSkylinks env w (blockOf p))) = false) ->
  (forall w, skyd_BlockSkylinks env w (blockOf c) = Some e) ->
  notTolerated' (blockError' (Some e)) = true ->
  forall w, exists w',
    sweepChunks' (pre ++ c :: post) w
    = (Some (Some (AddContext (AddContext e "block skylinks failed")
                              "failed to block skylinks list")), w')
    /\ skydReqs w' = skydReqs w ++ map blockOf pre ++ [blockOf c]
    /\ dbWrites w' = dbWrites w ++ map (fun p => latestOf p 0%Z) pre
    /\ checkpoint w' = last (map (fun p => latestOf p 0%Z) pre) (checkpoint w).
Proof.
  intros Hctx Hdb Hpre Hc Hrej.
  induction pre as [|p pre IH]; intros w.
  - simpl app.
    destruct (sweepChunks_turn c post w)
      as [w' Hcan _ _ | w1 w' e' _ He _ Hrun Hr Hd Hcp
          | w1 w2 w' _ Hnt _ _ _ _ _ | w1 w2 w' _ Hnt _ _ _ _ _].
    + exfalso. revert Hcan. now apply collect_not_cancelled.
    + rewrite Hc in He. simpl in He. inversion He; subst e'.
      exists w'. simpl. now rewrite app_nil_r.
    + exfalso. rewrite Hc, Hrej in Hnt. discriminate.
    + exfalso. rewrite Hc, Hrej in Hnt. discriminate.
  - simpl app.
    destruct (sweepChunks_turn p (pre ++ c :: post) w)
      as [w' Hcan _ _ | w1 w' e' _ He Hnt _ _ _ _
          | w1 w2 w' _ _ Hnt _ _ _ _ | w1 w2 w' _ _ _ Hrun Hr Hd Hcp].
    + exfalso. revert Hcan. now apply collect_not_cancelled.
    + exfalso. rewrite <- He, Hpre in Hnt; [discriminate | now left].
    + exfalso. rewrite Hdb in Hnt. discriminate.
    + destruct (IH (fun q Hin => Hpre q (or_intror Hin)) w') as [w'' [Hrun' [Hr' [Hd' Hcp']]]].
      exists w''. rewrite Hrun, Hrun', Hr', Hd', Hcp', Hr, Hd, Hcp, Hdb.
      repeat split.
      * simpl. now rewrite <- !app_assoc.
      * simpl. now rewrite <- !app_assoc.
      * destruct pre as [|q pre]; [reflexivity|].
        simpl map.
        etransitivity; [apply (last_cons_default _ _ _ (checkpoint w)) | reflexivity].
Qed.

(** *** The whole sweep *)

Lemma newReqs_app w w' l : skydReqs w' = skydReqs w ++ l -> newReqs w w' = l.
Proof. intros H. unfold newReqs. rewrite H. apply skipn_length_app. Qed.

Lemma newWrites_app w w' l : dbWrites w' = dbWrites w ++ l -> newWrites w w' = l.
Proof. intros H. unfold newWrites. rewrite H. apply skipn_length_app. Qed.

(** The sweep when the store answers a list and no error. *)
Lemma SweepAndBlock_pending items w :
  db_SkylinksToBlock env w = (items, None) ->
  SweepAndBlock' w
  = (let (r, w1) := sweepChunks' (chunks (sortSlice items)) (add_log LTrace allTrace w) in
     match r with
     | Some res => (res, w1)
     | None =>
         let (err, w2) := dbSetLatestBlockTimestamp env (time_Now env w1) w1 in
         if notTolerated' err then (err, add_log LTrace timestampFailedTrace w2)
         else (None, w2)
     end).
Proof.
  intros Hdb.
  cbv beta iota delta [SweepAndBlock bind dbSkylinksToBlock errors_Contains_NoDocs
                       logf ret timeNow].
  rewrite Hdb. cbv beta iota. fold allTrace.
  destruct (sweepChunks' (chunks (sortSlice items)) (add_log LTrace allTrace w)) as [[res|] w1];
    [reflexivity|].
  destruct (dbSetLatestBlockTimestamp env (time_Now env w1) w1) as [err w2].
  destruct (notTolerated' err); reflexivity.
Qed.

(** The sweep when the store answers an error. *)
Lemma SweepAndBlock_store_error items e w :
  db_SkylinksToBlock env w = (items, Some e) ->
  SweepAndBlock' w
  = if Contains_ErrNoDocumentsFound e
    then dbSetLatestBlockTimestamp env (time_Now env w) w
    else (Some e, w).
Proof.
  intros Hdb.
  cbv beta iota delta [SweepAndBlock bind dbSkylinksToBlock errors_Contains_NoDocs
                       logf ret timeNow].
  rewrite Hdb. cbv beta iota.
  destruct (Contains_ErrNoDocumentsFound e); reflexivity.
Qed.

(** Whatever the environment does, the requests of a sweep are the blocks
    of the first chunks of the sorted list, one request for each. *)
Lemma SweepAndBlock_reqs w :
  exists n,
    newReqs w (snd (SweepAndBlock' w))
    = map blockOf (firstn n (chunks (sortSlice (fst (db_SkylinksToBlock env w))))).
Proof.
  destruct (db_SkylinksToBlock env w) as [items [e|]] eqn:Hdb.
  - exists 0. apply newReqs_app. rewrite (SweepAndBlock_store_error w Hdb).
    rewrite app_nil_r.
    destruct (Contains_ErrNoDocumentsFound e); [|reflexivity].
    destruct (dbSetLatestBlockTimestamp_run (time_Now env w) w) as (w' & Hrun & _ & Hr & _).
    now rewrite Hrun.
  - rewrite (SweepAndBlock_pending w Hdb). simpl fst.
    destruct (sweepChunks_reqs (chunks (sortSlice items)) (add_log LTrace allTrace w))
      as [n [_ Hreq]].
    exists n. apply newReqs_app.
    destruct (sweepChunks' (chunks (sortSlice items)) (add_log LTrace allTrace w))
      as [[res|] w1]; simpl in Hreq; [exact Hreq|].
    destruct (dbSetLatestBlockTimestamp_run (time_Now env w1) w1) as (w2 & Hrun & _ & Hr & _).
    rewrite Hrun.
    destruct (notTolerated' (db_SetLatestBlockTimestamp env w1 (time_Now env w1)));
      simpl; congruence.
Qed.

Lemma first_chunk_with (X : string) (chs : list (list BlockedSkylink)) :
  In X (List.concat (map blockOf chs)) ->
  exists pre c post,
    chs = pre ++ c :: post
    /\ ~ In X (List.concat (map blockOf pre))
    /\ In X (blockOf c).
Proof.
  induction chs as [|c chs IH]; simpl; [contradiction|].
  intros Hin.
  destruct (in_dec string_dec X (blockOf c)) as [Hc|Hc].
  - exists [], c, chs. simpl. auto.
  - apply in_app_or in Hin. destruct Hin as [Hin|Hin]; [contradiction|].
    destruct (IH Hin) as (pre & c' & post & -> & Hpre & Hc').
    exists (c :: pre), c', post. simpl. repeat split; [|assumption].
    intros H. apply in_app_or in H. tauto.
Qed.

Lemma existsb_eqb_In (X : string) (l : list string) :
  existsb (String.eqb X) l = true <-> In X l.
Proof.
  rewrite existsb_exists. split.
  - intros [y [Hy Heq]]. apply String.eqb_eq in Heq. now subst.
  - intros H. exists X. split; [assumption | apply String.eqb_refl].
Qed.

(* ------------------------------------------------------------------ *)
(** ** The dispatcher *)

(** The sweep when the authority rejects exactly the batches that hold
    [X]: where it stops, what it has submitted and written by then, and
    what the store holds afterwards (the timestamp of the chunk before the
    rejected one, or what it held before the sweep when the first chunk is
    the rejected one). *)
Lemma SweepAndBlock_first_rejection
      (items : list BlockedSkylink) (X : string) (eX : error) (w : World) :
  db_SkylinksToBlock env w = (items, None) ->
  (forall w0 sls, skyd_BlockSkylinks env w0 sls
                  = if existsb (String.eqb X) sls then Some eX else None) ->
  notTolerated' (blockError' (Some eX)) = true ->
  (forall w0, ctx_Done env w0 = false) ->
  (forall w0 t, db_SetLatestBlockTimestamp env w0 t = None) ->
  X <> EmptyString ->
  In X (map Skylink items) ->
  exists pre c post w',
    chunks (sortSlice items) = pre ++ c :: post
    /\ ~ In X (List.concat (map blockOf pre))
    /\ In X (blockOf c)
    /\ SweepAndBlock' w
       = (Some (AddContext (AddContext eX "block skylinks failed")
                           "failed to block skylinks list"), w')
    /\ newReqs w w' = map blockOf pre ++ [blockOf c]
    /\ newWrites w w' = map (fun p => latestOf p 0%Z) pre
    /\ checkpoint w' = last (map (fun p => latestOf p 0%Z) pre) (checkpoint w).
Proof.
  intros Hdb Hsk Hrej Hctx Hset HX Hin.
  assert (Hin' : In X (List.concat (map blockOf (chunks (sortSlice items))))).
  { rewrite concat_map_blockOf, concat_chunks. apply In_blockOf; [assumption|].
    eapply Permutation_in; [|exact Hin].
    apply Permutation_map, Permutation_sym, sortSlice_perm. }
  destruct (first_chunk_with _ _ Hin') as (pre & c & post & Hsplit & Hpre & Hc).
  assert (Hpre' : forall p, In p pre -> forall w0,
               notTolerated' (blockError' (skyd_BlockSkylinks env w0 (blockOf p))) = false).
  { intros p Hp w0. rewrite Hsk.
    destruct (existsb (String.eqb X) (blockOf p)) eqn:Hex; [|reflexivity].
    exfalso. apply Hpre. apply existsb_eqb_In in Hex.
    apply in_concat. exists (blockOf p). split; [now apply in_map | assumption]. }
  assert (Hc' : forall w0, skyd_BlockSkylinks env w0 (blockOf c) = Some eX).
  { intros w0. rewrite Hsk. apply existsb_eqb_In in Hc. now rewrite Hc. }
  destruct (sweepChunks_rejected pre c post Hctx Hset Hpre' Hc' Hrej (add_log LTrace allTrace w))
    as (w' & Hrun & Hr & Hd & Hcp).
  exists pre, c, post, w'. repeat split; try assumption.
  - rewrite (SweepAndBlock_pending w Hdb), Hsplit, Hrun. reflexivity.
  - apply newReqs_app. exact Hr.
  - apply newWrites_app. exact Hd.
Qed.

(** C5, amended.  Every batch a sweep submits holds at most 100
    identifiers, none of them empty, and is not empty when its chunk has an
    item with a skylink; the batches are the blocks of the first chunks of
    the list sorted by [TimestampAdded], so that, read one after the other,
    they list items in ascending order of [TimestampAdded]. *)
Theorem C5_batches_bounded_and_ascending (w : World) :
  exists n,
    let sent := firstn n (chunks (sortSlice (fst (db_SkylinksToBlock env w)))) in
    newReqs w (snd (SweepAndBlock' w)) = map blockOf sent
    /\ Forall (fun c => List.length (blockOf c) <= skylinksChunk
                        /\ Forall (fun s => s <> EmptyString) (blockOf c)
                        /\ (existsb nonEmptySkylink c = true -> blockOf c <> []))
              sent
    /\ List.concat (newReqs w (snd (SweepAndBlock' w)))
       = map Skylink (filter nonEmptySkylink (List.concat sent))
    /\ ascending (filter nonEmptySkylink (List.concat sent)).
Proof.
  destruct (SweepAndBlock_reqs w) as [n Hreq].
  exists n. cbv zeta.
  set (sorted := sortSlice (fst (db_SkylinksToBlock env w))) in *.
  split; [exact Hreq|]. split; [|split].
  - apply Forall_forall. intros c Hc.
    assert (Hc' : In c (chunks sorted)).
    { rewrite <- (firstn_skipn n (chunks sorted)). apply in_or_app. now left. }
    pose proof (chunks_sizes sorted) as Hsz.
    rewrite Forall_forall in Hsz. specialize (Hsz c Hc').
    split; [|split].
    + pose proof (blockOf_length c). lia.
    + apply blockOf_nonEmpty.
    + intros Hex Hnil. apply existsb_exists in Hex. destruct Hex as [sl [Hsl Hne]].
      assert (Hin : In (Skylink sl) (blockOf c)).
      { unfold blockOf. apply in_map. apply filter_In. tauto. }
      rewrite Hnil in Hin. contradiction.
  - rewrite Hreq, concat_map_blockOf. reflexivity.
  - apply ascending_filter.
    apply ascending_app_l with (l2 := List.concat (skipn n (chunks sorted))).
    rewrite <- concat_app, firstn_skipn, concat_chunks.
    apply sortSlice_ascending.
Qed.

(** C8.  An item whose skylink is the empty string is never submitted: the
    batches of a sweep are the blocks of chunks, which hold no empty
    identifier.  The loop over a chunk skips such an item with one warning:
    it adds nothing to the batch (so nothing that any submission could count
    as blocked or as failed; the package keeps no such counters) and it is
    ignored for the latest timestamp. *)
Theorem C8_empty_skylinks_are_dropped (w : World) :
  (exists n,
      newReqs w (snd (SweepAndBlock' w))
      = map blockOf (firstn n (chunks (sortSlice (fst (db_SkylinksToBlock env w))))))
  /\ Forall (Forall (fun s => s <> EmptyString)) (newReqs w (snd (SweepAndBlock' w)))
  /\ (forall chunk block latest w0 b l w1,
         collect env chunk block latest w0 = (Some (b, l), w1) ->
         b = block ++ blockOf chunk
         /\ l = latestOf chunk latest
         /\ logs w1 = logs w0 ++ repeat (LWarn, emptySkylinkWarning) (emptySkylinks chunk)).
Proof.
  destruct (SweepAndBlock_reqs w) as [n Hreq].
  split; [now exists n|]. split.
  - rewrite Hreq. apply Forall_map. apply Forall_forall. intros c _.
    apply blockOf_nonEmpty.
  - intros chunk block latest w0 b l w1. apply collect_value.
Qed.

(* ------------------------------------------------------------------ *)
(** ** The lock of the purger list *)

Lemma acquireLock_acquired n :
  forall lockErr w w1,
    acquireLock env n lockErr w = (None, w1) ->
    (n = 0 /\ lockErr = None) \/ lockDir w1 = true.
Proof.
  induction n as [|n IH]; intros lockErr w w1 Hrun.
  - simpl in Hrun. unfold ret in Hrun. inversion Hrun. now left.
  - right. simpl in Hrun. unfold bind at 1 in Hrun. unfold osMkdir in Hrun.
    destruct (os_Mkdir env w) as [e|].
    + unfold bind at 1, logf at 1 in Hrun. unfold bind at 1, timeSleep at 1 in Hrun.
      apply IH in Hrun. destruct Hrun as [[_ Hn]|Hl]; [discriminate | exact Hl].
    + unfold ret in Hrun. inversion Hrun. reflexivity.
Qed.

Lemma releaseLock_run w :
  sysCalls (snd (releaseLock env w)) = sysCalls w ++ [SysRemove]
  /\ (os_Remove env w = None -> lockDir (snd (releaseLock env w)) = false).
Proof.
  unfold releaseLock, bind, osRemove.
  destruct (os_Remove env w) as [e|]; simpl; split; auto; discriminate.
Qed.

Lemma bind_run {A B} (m : M A) (k : A -> M B) (w : World) (a : A) (w1 : World) :
  m w = (a, w1) -> bind m k w = k a w1.
Proof. intros H. unfold bind. now rewrite H. Qed.

(** A computation followed by the deferred release. *)
Lemma release_after {A} (body : M A) (w1 : World) :
  (exists calls,
      sysCalls (snd ((r <- body ;; releaseLock env ;; ret r) w1)) = calls ++ [SysRemove])
  /\ ((forall w0, os_Remove env w0 = None) ->
      lockDir (snd ((r <- body ;; releaseLock env ;; ret r) w1)) = false).
Proof.
  unfold bind. destruct (body w1) as [r wb].
  pose proof (releaseLock_run wb) as [Hcalls Hlock].
  destruct (releaseLock env wb) as [u w']. simpl in *.
  split.
  - exists (sysCalls wb). exact Hcalls.
  - intros Hrm. apply Hlock, Hrm.
Qed.

(** C9.  When the lock directory has been made, every run of
    [writeToNginxCachePurger] ends by removing it, whatever the file system
    answers to the opening, the writes, the sync and the close: the last
    call to the file system is the removal, and when that call succeeds the
    directory is gone. *)
Theorem C9_lock_released_on_every_exit (sls : list string) (w w1 : World) :
  acquireLock env 3 None w = (None, w1) ->
  lockDir w1 = true
  /\ (exists calls,
         sysCalls (snd (writeToNginxCachePurger' sls w)) = calls ++ [SysRemove])
  /\ ((forall w0, os_Remove env w0 = None) ->
      lockDir (snd (writeToNginxCachePurger' sls w)) = false).
Proof.
  intros Hacq. split.
  { apply acquireLock_acquired in Hacq. destruct Hacq as [[Hn _]|Hl]; [discriminate | exact Hl]. }
  cbv delta [writeToNginxCachePurger]. cbv beta.
  erewrite bind_run; [|exact Hacq]. cbv beta iota.
  apply release_after.
Qed.

(* ------------------------------------------------------------------ *)
(** ** The loop of [Start] *)

Lemma wrap64_small (z : Z) : (- 2 ^ 63 <= z < 2 ^ 63)%Z -> wrap64 z = z.
Proof. intros Hz. unfold wrap64. rewrite Z.mod_small; lia. Qed.

Lemma afterSweep_error (e : error) (st : LoopState) :
  Contains_ErrNoDocumentsFound e = false ->
  errorsInBounds st ->
  numSubsequentErrs (afterSweep' (Some e) st) = Z.min (numSubsequentErrs st + 1) 6
  /\ sleepLength (afterSweep' (Some e) st)
     = (sleepOnErrStep * Z.min (numSubsequentErrs st + 1) 6)%Z.
Proof.
  unfold errorsInBounds, afterSweep, errors_Contains_NoDocs, sleepOnErrSteps, sleepOnErrStep,
    Second, Millisecond.
  intros -> Hb.
  rewrite (@wrap64_small (numSubsequentErrs st + 1)%Z) by lia.
  destruct (Z.gtb_spec (numSubsequentErrs st + 1) 6); simpl numSubsequentErrs; simpl sleepLength.
  - rewrite Z.min_r by lia. split; reflexivity.
  - rewrite Z.min_l by lia. split; [reflexivity|]. apply wrap64_small. lia.
Qed.

Lemma afterSweep_bounds (err : option error) (st : LoopState) :
  errorsInBounds st -> errorsInBounds (afterSweep' err st).
Proof.
  intros Hb. destruct err as [e|].
  - destruct (Contains_ErrNoDocumentsFound e) eqn:Hnd.
    + unfold afterSweep, errors_Contains_NoDocs. rewrite Hnd.
      unfold errorsInBounds, sleepOnErrSteps. simpl. lia.
    + destruct (afterSweep_error Hnd Hb) as [Hn _].
      unfold errorsInBounds in *. rewrite Hn. unfold sleepOnErrSteps in *. lia.
  - unfold afterSweep, errorsInBounds, sleepOnErrSteps. simpl. lia.
Qed.

(** One turn of the loop: the goroutine returns, or the sweep runs after
    the sleep and its result sets the next state. *)
Lemma loopTurn_run (st : LoopState) (w : World) :
  (ctx_Done env w = true /\ fst (loopTurn' st w) = None)
  \/ (ctx_Done env w = false
      /\ exists w',
          loopTurn' st w
          = (Some (afterSweep'
                     (fst (SweepAndBlock' (add_sleep (sleepLength st) (add_poll w)))) st),
             w')
          /\ sameStore (snd (SweepAndBlock' (add_sleep (sleepLength st) (add_poll w)))) w').
Proof.
  unfold loopTurn, ctxDone, timeSleep, logf, ret. cbv beta delta [bind].
  destruct (ctx_Done env w).
  - left. split; reflexivity.
  - right. split; [reflexivity|].
    destruct (SweepAndBlock' (add_sleep (sleepLength st) (add_poll w))) as [err w1].
    destruct err as [e|]; simpl; eexists; (split; [reflexivity|]); repeat split.
Qed.

Lemma loopTurns_bounds (n : nat) :
  forall st w, errorsInBounds st -> errorsInBounds (fst (fst (loopTurns' n st w))).
Proof.
  induction n as [|n IH]; intros st w Hb; [exact Hb|].
  simpl. unfold bind at 1.
  destruct (loopTurn_run st w) as [[_ Hret] | [_ [w' [Hrun _]]]].
  - destruct (loopTurn' st w) as [[st'|] w1]; simpl in Hret; [discriminate | exact Hb].
  - rewrite Hrun. apply IH. now apply afterSweep_bounds.
Qed.

Lemma loopTurns_errors (n : nat) :
  (forall w, ctx_Done env w = false) ->
  (forall w, exists e, fst (SweepAndBlock' w) = Some e
                       /\ Contains_ErrNoDocumentsFound e = false) ->
  forall st w,
    errorsInBounds st ->
    numSubsequentErrs (fst (fst (loopTurns' (S n) st w)))
    = Z.min (numSubsequentErrs st + Z.of_nat (S n)) 6
    /\ sleepLength (fst (fst (loopTurns' (S n) st w)))
       = (sleepOnErrStep * Z.min (numSubsequentErrs st + Z.of_nat (S n)) 6)%Z.
Proof.
  intros Hctx Herr.
  assert (Hstep : forall m st w, exists e w',
               Contains_ErrNoDocumentsFound e = false
               /\ loopTurns' (S m) st w = loopTurns' m (afterSweep' (Some e) st) w').
  { intros m st w.
    destruct (loopTurn_run st w) as [[Hd _] | [_ [w' [Hrun _]]]];
      [rewrite Hctx in Hd; discriminate|].
    destruct (Herr (add_sleep (sleepLength st) (add_poll w))) as [e [He Hnd]].
    rewrite He in Hrun. exists e, w'. split; [exact Hnd|].
    simpl loopTurns. erewrite bind_run; [|exact Hrun]. reflexivity. }
  induction n as [|n IH]; intros st w Hb.
  - destruct (Hstep 0 st w) as (e & w' & Hnd & ->).
    simpl loopTurns. unfold ret. simpl fst.
    exact (afterSweep_error Hnd Hb).
  - destruct (Hstep (S n) st w) as (e & w' & Hnd & ->).
    pose proof (afterSweep_error Hnd Hb) as [Hn _].
    pose proof (afterSweep_bounds (Some e) Hb) as Hb'.
    destruct (IH (afterSweep' (Some e) st) w' Hb') as [IHn IHs].
    rewrite IHn, IHs, Hn.
    unfold errorsInBounds, sleepOnErrSteps in *.
    assert (Heq : Z.min (Z.min (numSubsequentErrs st + 1) 6 + Z.of_nat (S n)) 6
                  = Z.min (numSubsequentErrs st + Z.of_nat (S (S n))) 6) by lia.
    rewrite Heq. split; reflexivity.
Qed.

(** C6.  In every run of the loop of [Start] the count of subsequent errors
    stays between 0 and [sleepOnErrSteps] (6).  When every sweep returns an
    error (other than the no-documents one) and the context is not done,
    then after N turns, from a state whose count is 0, the count is
    min(N, 6) and the sleep is 10 seconds times min(N, 6), hence at most
    60 seconds. *)
Theorem C6_linear_backoff_capped :
  (forall n w, errorsInBounds (fst (fst (Start' n w))))
  /\ ((forall w, ctx_Done env w = false) ->
      (forall w, exists e, fst (SweepAndBlock' w) = Some e
                           /\ Contains_ErrNoDocumentsFound e = false) ->
      forall N st w,
        1 <= N ->
        numSubsequentErrs st = 0%Z ->
        let st' := fst (fst (loopTurns' N st w)) in
        numSubsequentErrs st' = Z.min (Z.of_nat N) sleepOnErrSteps
        /\ sleepLength st' = (10 * Second * Z.min (Z.of_nat N) 6)%Z
        /\ (sleepLength st' <= 60 * Second)%Z).
Proof.
  split.
  - intros n w. apply loopTurns_bounds.
    unfold errorsInBounds, initialLoopState, sleepOnErrSteps. simpl. lia.
  - intros Hctx Herr N st w HN H0.
    destruct N as [|n]; [lia|].
    assert (Hb : errorsInBounds st).
    { unfold errorsInBounds, sleepOnErrSteps. lia. }
    destruct (loopTurns_errors n Hctx Herr w Hb) as [Hn Hs].
    cbv zeta. rewrite Hn, Hs, H0. unfold sleepOnErrStep, sleepOnErrSteps, Second, Millisecond.
    rewrite Z.add_0_l. repeat split; lia.
Qed.


(** The tolerance of "no entries updated" in the loop over the chunks and
    in the final write: when the store answers a list, the context is never
    done, and every error of the authority and of the store carries that
    message (which [errors.AddContext] keeps), the sweep submits every chunk,
    writes every timestamp and the current time, and returns no error. *)
Lemma SweepAndBlock_tolerates_no_entries_updated (items : list BlockedSkylink) (w : World) :
  db_SkylinksToBlock env w = (items, None) ->
  (forall w0, ctx_Done env w0 = false) ->
  (forall e s, strings_Contains (Error e) noEntriesUpdated = true ->
               strings_Contains (Error (AddContext e s)) noEntriesUpdated = true) ->
  (forall w0 sls e, skyd_BlockSkylinks env w0 sls = Some e ->
                    strings_Contains (Error e) noEntriesUpdated = true) ->
  (forall w0 t e, db_SetLatestBlockTimestamp env w0 t = Some e ->
                  strings_Contains (Error e) noEntriesUpdated = true) ->
  exists w1 w',
    SweepAndBlock' w = (None, w')
    /\ newReqs w w' = map blockOf (chunks (sortSlice items))
    /\ newWrites w w'
       = map (fun c => latestOf c 0%Z) (chunks (sortSlice items)) ++ [time_Now env w1].
Proof.
  intros Hdb Hctx Hadd Hsk Hset.
  assert (Hset' : forall w0 t, notTolerated' (db_SetLatestBlockTimestamp env w0 t) = false).
  { intros w0 t. destruct (db_SetLatestBlockTimestamp env w0 t) as [e|] eqn:He; [|reflexivity].
    simpl. now rewrite (Hset _ _ _ He). }
  assert (Hsk' : forall c, In c (chunks (sortSlice items)) -> forall w0,
               notTolerated' (blockError' (skyd_BlockSkylinks env w0 (blockOf c))) = false).
  { intros c _ w0. destruct (skyd_BlockSkylinks env w0 (blockOf c)) as [e|] eqn:He; [|reflexivity].
    simpl. rewrite Hadd; [reflexivity|]. now apply Hsk in He. }
  destruct (sweepChunks_tolerated (chunks (sortSlice items)) Hctx Hsk' Hset'
                                  (add_log LTrace allTrace w))
    as (w1 & Hrun & Hr & Hd).
  destruct (dbSetLatestBlockTimestamp_run (time_Now env w1) w1) as (w2 & Hw & Hd2 & Hr2 & _).
  exists w1, w2.
  rewrite (SweepAndBlock_pending w Hdb), Hrun, Hw, Hset'.
  repeat split.
  - apply newReqs_app. rewrite Hr2, Hr. reflexivity.
  - apply newWrites_app. rewrite Hd2, Hd. simpl. now rewrite <- app_assoc.
Qed.

End Facts.

(* ------------------------------------------------------------------ *)
(** ** The results at concrete inputs *)

Local Open Scope string_scope.
Local Open Scope list_scope.

(** C1, the code at the input of [testBlockSkylinks]: sixteen items, of
    which the authority rejects the tenth.  A dispatcher that isolates the
    rejected identifier, as the claim describes it, counts 15 blocked and
    1 failed and ends by submitting that identifier alone.  The package
    submits the whole batch once and returns the rejection as the error of
    the sweep: the rejected identifier is never submitted alone, and the
    fifteen other identifiers are in no accepted request. *)
Lemma C1_rejected_batch_is_not_isolated :
  let '(blocked, failed, submissions) := spec_halving Mock.accepts (blockOf Mock.sixteen) in
  let r := Mock.sweep (Mock.sixteen, None) None 1000 (Mock.world 0 None) in
  blocked = 15
  /\ failed = 1
  /\ List.length submissions = 9
  /\ In ["throwerror"] submissions
  /\ skydReqs (snd r) = [blockOf Mock.sixteen]
  /\ skydReqs (snd r) <> submissions
  /\ ~ In ["throwerror"] (skydReqs (snd r))
  /\ fst r <> None.
Proof.
  vm_compute. repeat split; try discriminate.
  - do 6 right. left. reflexivity.
  - intros [H|[]]. discriminate.
Qed.

(** C2, the code at the input of [testBlockSkylinks]: sixteen items in
    ascending order, the tenth rejected, the store holding the zero time.
    The test expects the store to hold afterwards the timestamp of the ninth
    item, the last one before the failure.  The sweep writes nothing to the
    store, which keeps what it held. *)
Lemma C2_checkpoint_stays_behind_last_success :
  let r := Mock.sweep (Mock.sixteen, None) None 1000 (Mock.world 0 None) in
  fst r = Some "failed to block skylinks list: block skylinks failed: unable to update blocklist"
  /\ skydReqs (snd r) = [blockOf Mock.sixteen]
  /\ dbWrites (snd r) = []
  /\ checkpoint (snd r) = 0%Z
  /\ latestOf (firstn 9 Mock.sixteen) 0 = 9%Z
  /\ checkpoint (snd r) <> 9%Z.
Proof. vm_compute. repeat split; discriminate. Qed.

(** C3, the code at a turn whose sweep blocks one item without error, from
    the initial state: the count of subsequent errors is 0, but the sleep
    before the next sweep is [sleepBetweenScans], one minute in a standard
    build, and it is not zero in any build. *)
Lemma C3_success_sleeps_between_scans :
  let r := Mock.turn Standard (Mock.env ([Mock.item 1], None) None 1000)
                     initialLoopState (Mock.world 0 None) in
  fst r = Some (mkLoopState Minute 0)
  /\ skydReqs (snd r) = [["b"]]
  /\ sleepBetweenScans Dev <> 0%Z
  /\ sleepBetweenScans Testing <> 0%Z
  /\ sleepBetweenScans Standard <> 0%Z.
Proof. vm_compute. repeat split; discriminate. Qed.

(** C4, the code on a list that already holds two lines: the file is
    opened without [O_APPEND], the line is written from offset 0 and
    replaces the first bytes of the file. *)
Lemma C4_write_starts_at_offset_zero :
  let old := ("old1" ++ newline ++ "old2" ++ newline)%string in
  let r := Mock.purge (Mock.env ([], None) None 0) ["new"] (Mock.world 0 (Some old)) in
  fst r = None
  /\ listFile (snd r) = Some ("new" ++ newline ++ newline ++ "old2" ++ newline)%string
  /\ listFile (snd r) <> Some (old ++ "new" ++ newline)%string.
Proof. vm_compute. repeat split; discriminate. Qed.

(** C5, the claim as stated fails: a chunk whose only item has an empty
    skylink is submitted as an empty batch. *)
Lemma C5_counterexample :
  ~ Forall (fun batch : list string => batch <> [])
      (skydReqs (snd (Mock.sweep ([mkBlockedSkylink EmptyString 5], None) None 1000
                                 (Mock.world 0 None)))).
Proof.
  vm_compute. intros H. inversion H as [|b l Hb Hl]. now apply Hb.
Qed.

(** C6, an instance: a store that is down, seven turns from the start. *)
Lemma C6_witness :
  let env := Mock.env ([], Some "connection refused") None 0 in
  let st' := fst (fst (Mock.turns Standard env 7 initialLoopState (Mock.world 0 None))) in
  numSubsequentErrs st' = Z.min 7 sleepOnErrSteps
  /\ sleepLength st' = (10 * Second * Z.min 7 6)%Z
  /\ (sleepLength st' <= 60 * Second)%Z.
Proof.
  apply (proj2 (@C6_linear_backoff_capped
                  Mock.error Mock.Error Mock.Contains_ErrNoDocumentsFound Mock.AddContext
                  Standard (Mock.env ([], Some "connection refused") None 0))).
  - intros w. reflexivity.
  - intros w. exists "connection refused". split; reflexivity.
  - lia.
  - reflexivity.
Defined.


(** C8, an instance: a chunk of three items, the second without skylink. *)
Lemma C8_witness :
  let env := Mock.env ([], None) None 0 in
  let chunk := [Mock.item 1; mkBlockedSkylink EmptyString 2; Mock.item 3] in
  collect env chunk [] 0%Z (Mock.world 0 None)
  = (Some (["b"; "d"], 3%Z),
     add_poll (add_poll (add_log LWarn emptySkylinkWarning (add_poll (Mock.world 0 None)))))
  /\ ["b"; "d"] = ([] ++ blockOf chunk)%list
  /\ 3%Z = latestOf chunk 0
  /\ logs (add_poll (add_poll (add_log LWarn emptySkylinkWarning
                                       (add_poll (Mock.world 0 None)))))
     = (logs (Mock.world 0 None)
        ++ repeat (LWarn, emptySkylinkWarning) (emptySkylinks chunk))%list.
Proof.
  split; [reflexivity|].
  apply (proj2 (proj2 (@C8_empty_skylinks_are_dropped
                         Mock.error Mock.Error Mock.Contains_ErrNoDocumentsFound
                         Mock.AddContext (Mock.env ([], None) None 0) (Mock.world 0 None)))).
  reflexivity.
Defined.

(** C9, an instance: the second write fails; the lock is released. *)
Lemma C9_witness :
  let w := Mock.world 0 None in
  let r := Mock.purge Mock.failingDisk ["a"; "b"; "c"] w in
  fst r = Some "no space left on device"
  /\ lockDir (set_lockDir true (add_sysCall SysMkdir w)) = true
  /\ (exists calls, sysCalls (snd r) = (calls ++ [SysRemove])%list)
  /\ ((forall w0, os_Remove Mock.failingDisk w0 = None) -> lockDir (snd r) = false).
Proof.
  split; [reflexivity|].
  apply (@C9_lock_released_on_every_exit
           Mock.error Mock.AddContext Mock.failingDisk ["a"; "b"; "c"]
           (Mock.world 0 None) (set_lockDir true (add_sysCall SysMkdir (Mock.world 0 None)))).
  reflexivity.
Defined.

(** C10, the code when the store has nothing to block and answers
    "no entries updated" to the write of the current time: the sweep returns
    that error, and the loop of [Start] counts it as an error.  The same
    answer to the writes of a sweep that has an item to block is
    tolerated. *)
Lemma C10_no_work_write_error_is_returned :
  let r := Mock.sweep ([], Some Mock.ErrNoDocumentsFound) (Some noEntriesUpdated) 1000
                      (Mock.world 0 None) in
  fst r = Some noEntriesUpdated
  /\ strings_Contains noEntriesUpdated "no entries updated" = true
  /\ numSubsequentErrs
       (afterSweep Mock.Contains_ErrNoDocumentsFound Standard (fst r) initialLoopState) = 1%Z
  /\ sleepLength
       (afterSweep Mock.Contains_ErrNoDocumentsFound Standard (fst r) initialLoopState)
     = (10 * Second)%Z
  /\ fst (Mock.sweep ([Mock.item 1], None) (Some noEntriesUpdated) 1000 (Mock.world 0 None))
     = None.
Proof. vm_compute. repeat split. Qed.

(* ------------------------------------------------------------------ *)
(** ** Beyond the claims: the constructor *)

(** X1.  [New] returns a blocker exactly when none of its four
    dependencies is nil, and the blocker then holds the dependencies and the
    two paths it was given; otherwise it returns the error of the first nil
    one, in the order context, store, logger, authority. *)
Theorem New_checks_dependencies
        (error Context DB Logger SkydAPI : Type) (errors_New : string -> error)
        (ctx : option Context) (skydAPI : option SkydAPI) (db : option DB)
        (logger : option Logger) (listPath lockPath : string) :
  match New errors_New ctx skydAPI db logger listPath lockPath with
  | inl bl =>
      ctx = Some (staticCtx bl)
      /\ db = Some (staticDB bl)
      /\ logger = Some (staticLogger bl)
      /\ skydAPI = Some (staticSkydAPI bl)
      /\ staticNginxCachePurgerListPath bl = listPath
      /\ staticNginxCachePurgeLockPath bl = lockPath
  | inr e =>
      (ctx = None /\ e = errors_New "invalid context provided")
      \/ (ctx <> None /\ db = None /\ e = errors_New "invalid DB provided")
      \/ (ctx <> None /\ db <> None /\ logger = None
          /\ e = errors_New "invalid logger provided")
      \/ (ctx <> None /\ db <> None /\ logger <> None /\ skydAPI = None
          /\ e = errors_New "invalid Skyd API provided")
  end.
Proof.
  unfold New.
  destruct ctx as [c|]; [|now left].
  destruct db as [d|]; [|right; left; repeat split; discriminate].
  destruct logger as [l|]; [|right; right; left; repeat split; discriminate].
  destruct skydAPI as [a|]; [|right; right; right; repeat split; discriminate].
  simpl. repeat split.
Qed.

(* ------------------------------------------------------------------ *)
(** ** Beyond the claims: bytes written to the purger list *)

Lemma string_app_nil_r (s : string) : (s ++ EmptyString)%string = s.
Proof. induction s as [|c s IH]; simpl; [reflexivity | now rewrite IH]. Qed.

Lemma string_app_assoc (a b c : string) :
  ((a ++ b) ++ c)%string = (a ++ b ++ c)%string.
Proof. induction a as [|x a IH]; simpl; [reflexivity | now rewrite IH]. Qed.

Lemma string_length_app (a b : string) :
  String.length (a ++ b) = String.length a + String.length b.
Proof. induction a as [|x a IH]; simpl; [reflexivity | now rewrite IH]. Qed.

Lemma dropString_empty (n : nat) : dropString n EmptyString = EmptyString.
Proof. destruct n; reflexivity. Qed.

Lemma dropString_add (a b : nat) (c : string) :
  dropString b (dropString a c) = dropString (a + b) c.
Proof.
  revert c. induction a as [|a IH]; intros c; simpl; [reflexivity|].
  destruct c as [|x c]; [apply dropString_empty | apply IH].
Qed.

Lemma writeAt_zero (d c : string) :
  writeAt 0 d c = (d ++ dropString (String.length d) c)%string.
Proof. reflexivity. Qed.

Lemma writeAt_past (d1 d2 t : string) :
  writeAt (String.length d1) d2 (d1 ++ t) = (d1 ++ writeAt 0 d2 t)%string.
Proof. induction d1 as [|x d1 IH]; simpl; [reflexivity | now rewrite IH]. Qed.

(** Two writes in a row are one write of the two pieces. *)
Lemma writeAt_writeAt (off : nat) (d1 d2 c : string) :
  writeAt (off + String.length d1) d2 (writeAt off d1 c) = writeAt off (d1 ++ d2) c.
Proof.
  revert c. induction off as [|off IH]; intros c.
  - rewrite Nat.add_0_l, !writeAt_zero, writeAt_past, writeAt_zero.
    rewrite dropString_add, string_length_app, string_app_assoc. reflexivity.
  - destruct c as [|x c]; simpl; now rewrite IH.
Qed.

Lemma skipn_length_app_nil {A} (l : list A) : skipn (List.length l) l = [].
Proof. induction l; simpl; auto. Qed.

Lemma repeat_snoc {A} (x : A) (n : nat) (l : list A) :
  (l ++ [x]) ++ repeat x n = l ++ repeat x (S n).
Proof. rewrite <- app_assoc. reflexivity. Qed.

Section HandOff.

Variable error : Type.
Variable AddContext : error -> string -> error.
Variable env : Env error.

#[local] Abbreviation purger := (writeToNginxCachePurger AddContext env).

(** The attempts to make the lock directory: [f] of them fail, each
    followed by a warning and a sleep of one second. *)
Lemma acquireLock_trace (n : nat) :
  forall lockErr w, exists f,
    sleeps (snd (acquireLock env n lockErr w)) = sleeps w ++ repeat Second f
    /\ logs (snd (acquireLock env n lockErr w)) = logs w ++ repeat (LWarn, lockWarning) f
    /\ listFile (snd (acquireLock env n lockErr w)) = listFile w
    /\ ((fst (acquireLock env n lockErr w) = None
         /\ ((n = 0 /\ lockErr = None)
             \/ (f < n
                 /\ sysCalls (snd (acquireLock env n lockErr w))
                    = sysCalls w ++ repeat SysMkdir (S f)
                 /\ lockDir (snd (acquireLock env n lockErr w)) = true)))
        \/ (fst (acquireLock env n lockErr w) <> None
            /\ f = n
            /\ sysCalls (snd (acquireLock env n lockErr w))
               = sysCalls w ++ repeat SysMkdir n
            /\ lockDir (snd (acquireLock env n lockErr w)) = lockDir w)).
Proof.
  induction n as [|n IH]; intros lockErr w.
  - exists 0. simpl. rewrite !app_nil_r. repeat split.
    destruct lockErr as [e|].
    + right. repeat split. discriminate.
    + left. split; [reflexivity|]. now left.
  - assert (Hstep : acquireLock env (S n) lockErr w
                    = match os_Mkdir env w with
                      | Some e =>
                          acquireLock env n (Some e)
                            (add_sleep Second
                               (add_log LWarn lockWarning (add_sysCall SysMkdir w)))
                      | None => (None, set_lockDir true (add_sysCall SysMkdir w))
                      end).
    { simpl. unfold bind, osMkdir, logf, timeSleep, ret.
      destruct (os_Mkdir env w); reflexivity. }
    rewrite Hstep. clear Hstep.
    destruct (os_Mkdir env w) as [e|].
    + set (w1 := add_sleep Second (add_log LWarn lockWarning (add_sysCall SysMkdir w))).
      destruct (IH (Some e) w1) as (f & Hs & Hl & Hf & Hcase).
      exists (S f). rewrite Hs, Hl, Hf. subst w1. cbn [sleeps logs listFile add_sleep add_log add_sysCall].
      rewrite !repeat_snoc. repeat split.
      destruct Hcase as [[Hr [[_ Hn]|(Hlt & Hc & Hd)]] | (Hr & Hfn & Hc & Hd)].
      * discriminate.
      * left. split; [exact Hr|]. right. split; [lia|]. split; [|exact Hd].
        rewrite Hc. cbn [sysCalls add_sleep add_log add_sysCall]. apply repeat_snoc.
      * right. split; [exact Hr|]. split; [lia|]. split; [|exact Hd].
        rewrite Hc. cbn [sysCalls add_sleep add_log add_sysCall]. apply repeat_snoc.
    + exists 0. unfold ret. cbn. rewrite !app_nil_r. repeat split.
      left. split; [reflexivity|]. right. repeat split. lia.
Qed.

(** The writes of the lines: [k] of them succeed. *)
Lemma writeLines_run (sls : list string) :
  forall off w c,
    listFile w = Some c ->
    exists k,
      k <= List.length sls
      /\ listFile (snd (writeLines env off sls w))
         = Some (match k with
                 | O => c
                 | S _ => writeAt off (joinLines (firstn k (purgerLines sls))) c
                 end)
      /\ ((fst (writeLines env off sls w) = None
           /\ k = List.length sls
           /\ sysCalls (snd (writeLines env off sls w))
              = sysCalls w ++ map SysWriteString (purgerLines sls))
          \/ (fst (writeLines env off sls w) <> None
              /\ k < List.length sls
              /\ sysCalls (snd (writeLines env off sls w))
                 = sysCalls w ++ map SysWriteString (firstn (S k) (purgerLines sls))))
      /\ lockDir (snd (writeLines env off sls w)) = lockDir w
      /\ sleeps (snd (writeLines env off sls w)) = sleeps w
      /\ logs (snd (writeLines env off sls w)) = logs w.
Proof.
  induction sls as [|s rest IH]; intros off w c Hfile.
  - exists 0. simpl. rewrite app_nil_r. repeat split; auto.
  - assert (Hstep : writeLines env off (s :: rest) w
                    = match file_WriteString env w (s ++ newline)%string with
                      | Some e =>
                          (Some e, add_sysCall (SysWriteString (s ++ newline)%string) w)
                      | None =>
                          writeLines env (off + String.length (s ++ newline)%string) rest
                            (set_listFile
                               (Some (writeAt off (s ++ newline)%string (fileContent w)))
                               (add_sysCall (SysWriteString (s ++ newline)%string) w))
                      end).
    { simpl. unfold bind, fileWriteString, ret.
      destruct (file_WriteString env w (s ++ newline)%string); reflexivity. }
    rewrite Hstep. clear Hstep.
    destruct (file_WriteString env w (s ++ newline)%string) as [e|].
    + exists 0. cbn. repeat split; auto; try lia.
      right. repeat split; [discriminate | lia].
    + set (w1 := set_listFile
                   (Some (writeAt off (s ++ newline)%string (fileContent w)))
                   (add_sysCall (SysWriteString (s ++ newline)%string) w)).
      assert (Hc : fileContent w = c) by (unfold fileContent; now rewrite Hfile).
      destruct (IH (off + String.length (s ++ newline)%string) w1
                   (writeAt off (s ++ newline)%string c))
        as (k & Hk & Hf & Hcase & Hd & Hs & Hl).
      { subst w1. cbn. now rewrite Hc. }
      exists (S k). split; [simpl; lia|]. split; [|split; [|repeat split]].
      * rewrite Hf. f_equal. cbn [purgerLines map firstn joinLines fold_right].
        destruct k as [|k].
        -- cbn. now rewrite string_app_nil_r.
        -- rewrite writeAt_writeAt. reflexivity.
      * destruct Hcase as [(Hr & Hkl & Hcalls) | (Hr & Hkl & Hcalls)].
        -- left. split; [exact Hr|]. split; [simpl; lia|].
           rewrite Hcalls. subst w1. cbn. now rewrite <- app_assoc.
        -- right. split; [exact Hr|]. split; [simpl; lia|].
           rewrite Hcalls. subst w1. cbn. now rewrite <- app_assoc.
      * rewrite Hd. reflexivity.
      * rewrite Hs. reflexivity.
      * rewrite Hl. reflexivity.
Qed.

Lemma acquireLock_all_fail (e : error) (n : nat) :
  (forall w0, os_Mkdir env w0 = Some e) ->
  forall lockErr w, fst (acquireLock env (S n) lockErr w) = Some e.
Proof.
  intros Hfail. induction n as [|n IH]; intros lockErr w.
  - simpl. unfold bind, osMkdir, logf, timeSleep, ret. now rewrite Hfail.
  - change (acquireLock env (S (S n)) lockErr w)
      with ((e0 <- osMkdir env ;;
             match e0 with
             | None => ret None
             | Some _ => logf LWarn "failed to acquire nginx lock" ;;
                         timeSleep Second ;;
                         acquireLock env (S n) e0
             end) w).
    unfold bind, osMkdir, logf, timeSleep. rewrite Hfail. apply IH.
Qed.

Lemma releaseLock_frame (w : World) :
  sysCalls (snd (releaseLock env w)) = sysCalls w ++ [SysRemove]
  /\ listFile (snd (releaseLock env w)) = listFile w
  /\ sleeps (snd (releaseLock env w)) = sleeps w.
Proof.
  unfold releaseLock, bind, osRemove, logf, ret.
  destruct (os_Remove env w); repeat split.
Qed.

Lemma syncAndClose_frame (w : World) :
  sysCalls (snd (syncAndClose env w)) = sysCalls w ++ [SysSync; SysClose]
  /\ listFile (snd (syncAndClose env w)) = listFile w
  /\ sleeps (snd (syncAndClose env w)) = sleeps w.
Proof.
  unfold syncAndClose, bind, fileSync, fileClose, logf, ret.
  destruct (file_Sync env w), (file_Close env (add_sysCall SysSync w));
    cbn; rewrite <- app_assoc; repeat split.
Qed.

(** The function, step by step. *)
Lemma purger_steps (sls : list string) (w : World) :
  purger sls w
  = match acquireLock env 3 None w with
    | (Some e, w1) => (Some (AddContext e "failed to acquire nginx lock"), w1)
    | (None, w1) =>
        match os_OpenFile env w1 with
        | Some e => (Some e, snd (releaseLock env (add_sysCall SysOpenFile w1)))
        | None =>
            (fst (writeLines env 0 sls
                    (set_listFile (Some (fileContent w1)) (add_sysCall SysOpenFile w1))),
             snd (releaseLock env
                    (snd (syncAndClose env
                            (snd (writeLines env 0 sls
                                    (set_listFile (Some (fileContent w1))
                                                  (add_sysCall SysOpenFile w1))))))))
        end
    end.
Proof.
  cbv delta [writeToNginxCachePurger bind]. cbv beta.
  destruct (acquireLock env 3 None w) as [[e|] w1]; [reflexivity|].
  unfold osOpenFile, ret.
  destruct (os_OpenFile env w1) as [e|].
  - destruct (releaseLock env (add_sysCall SysOpenFile w1)); reflexivity.
  - assert (Hopen : match listFile w1 with
                    | Some _ => add_sysCall SysOpenFile w1
                    | None => set_listFile (Some EmptyString) (add_sysCall SysOpenFile w1)
                    end
                    = set_listFile (Some (fileContent w1)) (add_sysCall SysOpenFile w1)).
    { unfold fileContent. destruct w1 as [? ? ? ? [c|] ? ? ? ?]; reflexivity. }
    rewrite Hopen.
    destruct (writeLines env 0 sls
                (set_listFile (Some (fileContent w1)) (add_sysCall SysOpenFile w1)))
      as [r w3].
    cbn [fst snd].
    destruct (syncAndClose env w3) as [u w4]. cbn [fst snd].
    destruct (releaseLock env w4) as [u' w5]. reflexivity.
Qed.

Lemma newCalls_app w w' l : sysCalls w' = sysCalls w ++ l -> newCalls w w' = l.
Proof. intros H. unfold newCalls. rewrite H. apply skipn_length_app. Qed.

Lemma newSleeps_app w w' l : sleeps w' = sleeps w ++ l -> newSleeps w w' = l.
Proof. intros H. unfold newSleeps. rewrite H. apply skipn_length_app. Qed.

Lemma newLogs_app w w' l : logs w' = logs w ++ l -> newLogs w w' = l.
Proof. intros H. unfold newLogs. rewrite H. apply skipn_length_app. Qed.

(** The three ways [writeToNginxCachePurger] ends: without the lock, with a
    file that cannot be opened, or after the loop over the lines. *)
Lemma purger_run (sls : list string) (w : World) :
  exists f,
    f <= 3
    /\ sleeps (snd (purger sls w)) = sleeps w ++ repeat Second f
    /\ ((f = 3
         /\ fst (purger sls w) <> None
         /\ sysCalls (snd (purger sls w)) = sysCalls w ++ repeat SysMkdir 3
         /\ listFile (snd (purger sls w)) = listFile w)
        \/ (f < 3
            /\ fst (purger sls w) <> None
            /\ sysCalls (snd (purger sls w))
               = sysCalls w ++ repeat SysMkdir (S f) ++ [SysOpenFile; SysRemove]
            /\ listFile (snd (purger sls w)) = listFile w)
        \/ (f < 3
            /\ exists k,
                k <= List.length sls
                /\ listFile (snd (purger sls w))
                   = Some (writeAt 0 (joinLines (firstn k (purgerLines sls))) (fileContent w))
                /\ ((fst (purger sls w) = None
                     /\ k = List.length sls
                     /\ sysCalls (snd (purger sls w))
                        = sysCalls w ++ repeat SysMkdir (S f)
                          ++ SysOpenFile :: map SysWriteString (purgerLines sls)
                          ++ [SysSync; SysClose; SysRemove])
                    \/ (fst (purger sls w) <> None
                        /\ k < List.length sls
                        /\ sysCalls (snd (purger sls w))
                           = sysCalls w ++ repeat SysMkdir (S f)
                             ++ SysOpenFile
                                :: map SysWriteString (firstn (S k) (purgerLines sls))
                             ++ [SysSync; SysClose; SysRemove])))).
Proof.
  rewrite purger_steps.
  destruct (acquireLock_trace 3 None w) as (f & Hs & _ & Hf & Hcase).
  destruct (acquireLock env 3 None w) as [[e|] w1]; cbn [fst snd] in *.
  - destruct Hcase as [[Hr _] | (_ & Hf3 & Hc & _)]; [discriminate|].
    exists 3. subst f. split; [lia|]. split; [exact Hs|].
    left. repeat split; [discriminate | exact Hc | exact Hf].
  - destruct Hcase as [[_ [[H30 _] | (Hlt & Hc & _)]] | (Hr & _)];
      [discriminate | | now contradiction Hr].
    exists f. split; [lia|].
    destruct (os_OpenFile env w1) as [e|]; cbn [fst snd].
    + destruct (releaseLock_frame (add_sysCall SysOpenFile w1)) as (Hrc & Hrf & Hrs).
      rewrite Hrs. split; [exact Hs|].
      right. left. repeat split; [exact Hlt | discriminate | | ].
      * rewrite Hrc. cbn [sysCalls add_sysCall]. rewrite Hc, <- !app_assoc. reflexivity.
      * rewrite Hrf. exact Hf.
    + set (w2 := set_listFile (Some (fileContent w1)) (add_sysCall SysOpenFile w1)).
      destruct (writeLines_run sls 0 w2 (c := fileContent w1) eq_refl)
        as (k & Hk & Hfile & Hw & _ & Hws & _).
      destruct (syncAndClose_frame (snd (writeLines env 0 sls w2))) as (Hsc & Hsf & Hss).
      destruct (releaseLock_frame (snd (syncAndClose env (snd (writeLines env 0 sls w2)))))
        as (Hrc & Hrf & Hrs).
      rewrite Hrs, Hss, Hws. split; [exact Hs|].
      right. right. split; [exact Hlt|]. exists k. split; [exact Hk|]. split.
      * rewrite Hrf, Hsf, Hfile. f_equal.
        assert (Hcont : fileContent w1 = fileContent w) by (unfold fileContent; now rewrite Hf).
        rewrite Hcont. destruct k; reflexivity.
      * rewrite Hrc, Hsc.
        destruct Hw as [(Hr & Hkl & Hcalls) | (Hr & Hkl & Hcalls)].
        -- left. repeat split; [exact Hr | exact Hkl|].
           rewrite Hcalls. subst w2. cbn [sysCalls set_listFile add_sysCall].
           rewrite Hc, <- !app_assoc. reflexivity.
        -- right. repeat split; [exact Hr | exact Hkl|].
           rewrite Hcalls. subst w2. cbn [sysCalls set_listFile add_sysCall].
           rewrite Hc, <- !app_assoc. reflexivity.
Qed.

(** X2.  The order of the calls [writeToNginxCachePurger] makes to the file
    system.  It tries at most three times to make the lock directory,
    sleeping one second after each failure.  Without the lock it makes no
    other call.  With the lock it opens the list, writes the lines in
    order (stopping at the first write that fails), syncs and closes, and
    removes the lock directory last; when the list cannot be opened it only
    removes the lock directory.  No line is written before the directory is
    made or after it is removed. *)
Theorem purger_call_order (sls : list string) (w : World) :
  exists f,
    f <= 3
    /\ newSleeps w (snd (purger sls w)) = repeat Second f
    /\ ((f = 3
         /\ fst (purger sls w) <> None
         /\ newCalls w (snd (purger sls w)) = repeat SysMkdir 3)
        \/ (f < 3
            /\ fst (purger sls w) <> None
            /\ newCalls w (snd (purger sls w))
               = repeat SysMkdir (S f) ++ [SysOpenFile; SysRemove])
        \/ (f < 3
            /\ exists j,
                j <= List.length sls
                /\ (fst (purger sls w) = None -> j = List.length sls)
                /\ newCalls w (snd (purger sls w))
                   = repeat SysMkdir (S f)
                     ++ SysOpenFile :: map SysWriteString (firstn j (purgerLines sls))
                     ++ [SysSync; SysClose; SysRemove])).
Proof.
  destruct (purger_run sls w) as (f & Hf & Hs & Hcase).
  exists f. split; [exact Hf|]. split; [now apply newSleeps_app|].
  destruct Hcase as [(H3 & Hr & Hc & _) | [(Hlt & Hr & Hc & _) | (Hlt & k & Hk & _ & Hw)]].
  - left. repeat split; [exact H3 | exact Hr | now apply newCalls_app].
  - right. left. repeat split; [exact Hlt | exact Hr | now apply newCalls_app].
  - right. right. split; [exact Hlt|].
    destruct Hw as [(Hr & Hkl & Hc) | (Hr & Hkl & Hc)].
    + exists (List.length sls). split; [lia|]. split; [reflexivity|].
      apply newCalls_app. rewrite Hc.
      rewrite firstn_all2; [reflexivity|]. unfold purgerLines. rewrite length_map. lia.
    + exists (S k). split; [lia|]. split; [intros Hn; now contradiction Hr|].
      now apply newCalls_app.
Qed.

(** X3.  When the lock directory cannot be made, [writeToNginxCachePurger]
    gives up after three attempts and three sleeps of one second: it returns
    the error of [os.Mkdir] with the context "failed to acquire nginx lock",
    logs three warnings, and neither opens nor changes the list, nor
    removes a lock directory it does not hold. *)
Theorem purger_lock_failure (e : error) (sls : list string) (w : World) :
  (forall w0, os_Mkdir env w0 = Some e) ->
  fst (purger sls w) = Some (AddContext e "failed to acquire nginx lock")
  /\ newCalls w (snd (purger sls w)) = repeat SysMkdir 3
  /\ newSleeps w (snd (purger sls w)) = repeat Second 3
  /\ newLogs w (snd (purger sls w)) = repeat (LWarn, lockWarning) 3
  /\ listFile (snd (purger sls w)) = listFile w
  /\ lockDir (snd (purger sls w)) = lockDir w.
Proof.
  intros Hfail.
  pose proof (acquireLock_all_fail 2 Hfail None w) as Hr.
  destruct (acquireLock_trace 3 None w) as (f & Hs & Hl & Hf & Hcase).
  rewrite purger_steps.
  destruct (acquireLock env 3 None w) as [[e'|] w1]; cbn [fst snd] in *; [|discriminate].
  inversion Hr; subst e'.
  destruct Hcase as [[Hn _] | (_ & Hf3 & Hc & Hd)]; [discriminate|]. subst f.
  repeat split.
  - now apply newCalls_app.
  - now apply newSleeps_app.
  - now apply newLogs_app.
  - exact Hf.
  - exact Hd.
Qed.

(** X4.  When [writeToNginxCachePurger] returns no error, the list holds the
    lines of the identifiers, each ended by a newline, written from the
    start of the file, followed by what the file held beyond that many
    bytes; so on an absent or empty list the file is exactly the lines. *)
Theorem purger_success_content (sls : list string) (w : World) :
  fst (purger sls w) = None ->
  listFile (snd (purger sls w))
  = Some (joinLines (purgerLines sls)
          ++ dropString (String.length (joinLines (purgerLines sls))) (fileContent w))%string
  /\ (fileContent w = EmptyString ->
      listFile (snd (purger sls w)) = Some (joinLines (purgerLines sls))).
Proof.
  intros Hok.
  destruct (purger_run sls w) as (f & _ & _ & Hcase).
  destruct Hcase as [(_ & Hr & _) | [(_ & Hr & _) | (_ & k & _ & Hfile & Hw)]];
    try (now contradiction Hr).
  destruct Hw as [(_ & Hkl & _) | (Hr & _)]; [|now contradiction Hr].
  subst k.
  rewrite firstn_all2 in Hfile by (unfold purgerLines; rewrite length_map; lia).
  rewrite writeAt_zero in Hfile. split; [exact Hfile|].
  intros Hempty. rewrite Hfile, Hempty, dropString_empty, string_app_nil_r. reflexivity.
Qed.

End HandOff.

(* ------------------------------------------------------------------ *)
(** ** Beyond the claims: the sweep *)

Lemma insertByTime_cons (x : BlockedSkylink) (l : list BlockedSkylink) :
  exists a l', insertByTime x l = a :: l'.
Proof.
  destruct l as [|y l]; simpl; [now exists x, []|].
  destruct (time_Before (TimestampAdded y) (TimestampAdded x)); eauto.
Qed.

Lemma sortSlice_cons (l : list BlockedSkylink) :
  l <> [] -> exists a l', sortSlice l = a :: l'.
Proof.
  destruct l as [|x l]; [congruence|]. intros _. simpl. apply insertByTime_cons.
Qed.

Lemma ceil_step (n : nat) :
  1 <= n -> (n + 99) / 100 = S ((n - 100 + 99) / 100).
Proof.
  intros Hn. destruct (Nat.le_gt_cases n 100) as [Hle|Hgt].
  - replace (n - 100) with 0 by lia. simpl ((0 + 99) / 100).
    symmetry. apply Nat.div_unique with (r := n - 1); lia.
  - replace (n + 99) with ((n - 100 + 99) + 1 * 100) by lia.
    rewrite Nat.div_add by lia. lia.
Qed.

Lemma length_chunksFrom {A} (bound : nat) (l : list A) :
  List.length l <= bound ->
  List.length (chunksFrom bound l) = (List.length l + 99) / 100.
Proof.
  revert l. induction bound as [|b IH]; intros [|a l] Hl;
    try reflexivity; try (simpl in Hl; lia).
  rewrite chunksFrom_cons. cbn [List.length].
  rewrite IH by (rewrite length_skipn; unfold skylinksChunk; simpl in *; lia).
  rewrite length_skipn. unfold skylinksChunk.
  rewrite (ceil_step (n := S (List.length l))) by lia. reflexivity.
Qed.

(** The number of chunks of a list of n items is n/100 rounded up. *)
Lemma length_chunks {A} (l : list A) :
  List.length (chunks l) = (List.length l + 99) / 100.
Proof. apply length_chunksFrom. lia. Qed.

Lemma Permutation_filter_map (f : BlockedSkylink -> bool) (l l' : list BlockedSkylink) :
  Permutation l l' -> Permutation (map Skylink (filter f l)) (map Skylink (filter f l')).
Proof.
  intros H. apply Permutation_map.
  induction H as [|x l l' H IH|x y l|l l' l'' H1 IH1 H2 IH2]; simpl.
  - constructor.
  - destruct (f x); [now constructor | exact IH].
  - destruct (f x), (f y); try apply Permutation_refl. apply perm_swap.
  - now transitivity (filter f l').
Qed.

Lemma latestOf_bounds (chunk : list BlockedSkylink) :
  forall t,
    (t <= latestOf chunk t)%Z
    /\ (forall sl, In sl chunk -> nonEmptySkylink sl = true ->
                   (TimestampAdded sl <= latestOf chunk t)%Z)
    /\ (latestOf chunk t = t
        \/ exists sl, In sl chunk /\ nonEmptySkylink sl = true
                      /\ latestOf chunk t = TimestampAdded sl).
Proof.
  induction chunk as [|x chunk IH]; intros t.
  - unfold latestOf. simpl. split; [lia|]. split; [contradiction | now left].
  - destruct (nonEmptySkylink x) eqn:Hx.
    + rewrite (latestOf_cons_take x chunk t Hx).
      set (t' := if time_After (TimestampAdded x) t then TimestampAdded x else t).
      assert (Ht' : (t <= t' /\ TimestampAdded x <= t')%Z
                    /\ (t' = t \/ t' = TimestampAdded x)).
      { subst t'. unfold time_After.
        destruct (Z.ltb_spec t (TimestampAdded x)); split; try lia; auto. }
      destruct (IH t') as (Hle & Hub & Hatt). split; [lia|]. split.
      * intros sl [<-|Hin] Hne; [lia | now apply Hub].
      * destruct Hatt as [Heq | (sl & Hin & Hne & Heq)].
        -- destruct Ht' as [_ [Ht|Ht]]; [left; congruence|].
           right. exists x. split; [now left|]. split; [exact Hx | congruence].
        -- right. exists sl. split; [now right|]. split; assumption.
    + rewrite (latestOf_cons_skip x chunk t Hx).
      destruct (IH t) as (Hle & Hub & Hatt). split; [exact Hle|]. split.
      * intros sl [<-|Hin] Hne; [congruence | now apply Hub].
      * destruct Hatt as [Heq | (sl & Hin & Hne & Heq)]; [now left|].
        right. exists sl. split; [now right|]. split; assumption.
Qed.

Section Sweeps.

Variable error : Type.
Variable Error : error -> string.
Variable Contains_ErrNoDocumentsFound : error -> bool.
Variable AddContext : error -> string -> error.
Variable release : Release.
Variable env : Env error.

#[local] Abbreviation notTolerated' := (notTolerated Error).
#[local] Abbreviation sweepChunks' := (sweepChunks Error AddContext env).
#[local] Abbreviation SweepAndBlock' :=
  (SweepAndBlock Error Contains_ErrNoDocumentsFound AddContext env).
#[local] Abbreviation blockSkylinks' := (blockSkylinks AddContext env).
#[local] Abbreviation purger := (writeToNginxCachePurger AddContext env).
#[local] Abbreviation afterSweep' := (afterSweep Contains_ErrNoDocumentsFound release).
#[local] Abbreviation loopTurn' :=
  (loopTurn Error Contains_ErrNoDocumentsFound AddContext release env).
#[local] Abbreviation loopTurns' :=
  (loopTurns Error Contains_ErrNoDocumentsFound AddContext release env).
#[local] Abbreviation Start' :=
  (Start Error Contains_ErrNoDocumentsFound AddContext release env).

(** X5.  [blockSkylinks] sends the list it is given to the authority once,
    whatever happened to the purger list: a failure of the hand-off is
    logged as a warning and does not change the result, which is nil when
    the authority accepts and its error with the context
    "block skylinks failed" otherwise.  It writes nothing to the store. *)
Theorem blockSkylinks_one_request (sls : list string) (w : World) :
  exists w1,
    sameStore w w1
    /\ fst (blockSkylinks' sls w)
       = errors_AddContext AddContext (skyd_BlockSkylinks env w1 sls) "block skylinks failed"
    /\ newReqs w (snd (blockSkylinks' sls w)) = [sls]
    /\ newWrites w (snd (blockSkylinks' sls w)) = []
    /\ (fst (purger sls w) <> None ->
        In (LWarn, purgerWarning) (logs (snd (blockSkylinks' sls w)))).
Proof.
  destruct (blockSkylinks_run AddContext env sls w) as (w1 & w' & Hs & Hrun & Hr & Hd & _).
  exists w1. split; [exact Hs|].
  assert (Hlog : fst (purger sls w) <> None ->
                 In (LWarn, purgerWarning) (logs (snd (blockSkylinks' sls w)))).
  { unfold blockSkylinks, bind.
    destruct (purger sls w) as [[e|] w0]; cbn [fst]; [intros _ | congruence].
    unfold logf, skydBlockSkylinks.
    match goal with
    | |- context [match ?x with _ => _ end] => destruct x
    end; unfold ret; cbn; apply in_or_app; right; now left. }
  rewrite Hrun in *. cbn [fst snd] in *.
  split; [destruct (skyd_BlockSkylinks env w1 sls); reflexivity|].
  split; [now apply newReqs_app|].
  split; [apply newWrites_app; now rewrite app_nil_r | exact Hlog].
Qed.

(** X6.  When the store fails to list the skylinks to block, with an error
    other than the no-documents one, the sweep returns that error as it is:
    nothing is submitted, written or logged. *)
Theorem SweepAndBlock_store_failure (items : list BlockedSkylink) (e : error) (w : World) :
  db_SkylinksToBlock env w = (items, Some e) ->
  Contains_ErrNoDocumentsFound e = false ->
  SweepAndBlock' w = (Some e, w).
Proof.
  intros Hdb Hnd.
  rewrite (SweepAndBlock_store_error Error Contains_ErrNoDocumentsFound AddContext env w Hdb).
  now rewrite Hnd.
Qed.

(** X7.  When the context is done at the first item of a sweep that has
    items, the sweep returns nil at once: nothing is submitted and nothing
    is written to the store, not even the current time. *)
Theorem SweepAndBlock_cancelled (items : list BlockedSkylink) (w : World) :
  db_SkylinksToBlock env w = (items, None) ->
  items <> [] ->
  ctx_Done env (add_log LTrace chunkTrace (add_log LTrace allTrace w)) = true ->
  fst (SweepAndBlock' w) = None
  /\ newReqs w (snd (SweepAndBlock' w)) = []
  /\ newWrites w (snd (SweepAndBlock' w)) = []
  /\ newCalls w (snd (SweepAndBlock' w)) = []
  /\ checkpoint (snd (SweepAndBlock' w)) = checkpoint w.
Proof.
  intros Hdb Hne Hdone.
  rewrite (SweepAndBlock_pending Error Contains_ErrNoDocumentsFound AddContext env w Hdb).
  destruct (sortSlice_cons Hne) as (a & l & ->).
  unfold chunks. cbn [List.length]. rewrite chunksFrom_cons.
  change (firstn skylinksChunk (a :: l)) with (a :: firstn 99 l).
  remember (firstn 99 l) as c eqn:Hc. clear Hc.
  remember (chunksFrom (List.length l) (skipn skylinksChunk (a :: l))) as rest eqn:Hrest.
  clear Hrest.
  cbn [sweepChunks collect]. unfold bind, logf, ctxDone.
  fold chunkTrace. rewrite Hdone. unfold ret. cbn [fst snd]. unfold newReqs, newWrites, newCalls.
  cbn. rewrite !skipn_length_app_nil. repeat split.
Qed.

(** X8.  When the store answers an empty list and no error, the sweep
    submits nothing and makes one write to the store, that of the current
    time; its result is that of the write, "no entries updated" being
    taken for success. *)
Theorem SweepAndBlock_empty_list (w : World) :
  db_SkylinksToBlock env w = ([], None) ->
  let w0 := add_log LTrace allTrace w in
  newReqs w (snd (SweepAndBlock' w)) = []
  /\ newWrites w (snd (SweepAndBlock' w)) = [time_Now env w0]
  /\ newCalls w (snd (SweepAndBlock' w)) = []
  /\ fst (SweepAndBlock' w)
     = if notTolerated' (db_SetLatestBlockTimestamp env w0 (time_Now env w0))
       then db_SetLatestBlockTimestamp env w0 (time_Now env w0)
       else None.
Proof.
  intros Hdb w0.
  rewrite (SweepAndBlock_pending Error Contains_ErrNoDocumentsFound AddContext env w Hdb).
  cbn [sortSlice chunks chunksFrom List.length sweepChunks]. unfold ret. fold w0.
  unfold dbSetLatestBlockTimestamp, newReqs, newWrites, newCalls.
  destruct (db_SetLatestBlockTimestamp env w0 (time_Now env w0)) as [e|]; cbn.
  - destruct (negb (strings_Contains (Error e) noEntriesUpdated)); cbn;
      rewrite !skipn_length_app_nil, skipn_length_app; repeat split.
  - rewrite !skipn_length_app_nil, skipn_length_app. repeat split.
Qed.

(** X9.  A sweep makes at most one request for each hundred items of the
    store's answer, the last hundred being possibly incomplete: with n
    items, at most n/100 rounded up. *)
Theorem SweepAndBlock_request_bound (w : World) :
  List.length (newReqs w (snd (SweepAndBlock' w)))
  <= (List.length (fst (db_SkylinksToBlock env w)) + 99) / 100.
Proof.
  destruct (SweepAndBlock_reqs Error Contains_ErrNoDocumentsFound AddContext env w) as [n Hn].
  rewrite Hn, length_map, length_firstn, length_chunks.
  rewrite (Permutation_length (sortSlice_perm (fst (db_SkylinksToBlock env w)))).
  lia.
Qed.

Lemma sweepChunks_progress (chs : list (list BlockedSkylink)) :
  forall w, exists n m,
    skydReqs (snd (sweepChunks' chs w)) = skydReqs w ++ map blockOf (firstn n chs)
    /\ dbWrites (snd (sweepChunks' chs w))
       = dbWrites w ++ map (fun c => latestOf c 0%Z) (firstn m chs)
    /\ m <= n /\ n <= S m /\ n <= List.length chs
    /\ (fst (sweepChunks' chs w) = None -> m = List.length chs).
Proof.
  induction chs as [|chunk rest IH]; intros w.
  - exists 0, 0. simpl. rewrite !app_nil_r. repeat split; lia.
  - destruct (sweepChunks_turn Error AddContext env chunk rest w)
      as [w' _ Hrun Hs | w1 w' e _ _ _ Hrun Hr Hd _
          | w1 w2 w' _ _ _ Hrun Hr Hd _ | w1 w2 w' _ _ _ Hrun Hr Hd _].
    + exists 0, 0. rewrite Hrun. destruct Hs as (_ & Hd & Hr). cbn [fst snd firstn map].
      rewrite Hr, Hd, !app_nil_r. repeat split; try lia. discriminate.
    + exists 1, 0. rewrite Hrun. cbn [fst snd firstn map].
      rewrite Hr, Hd, app_nil_r. repeat split; try lia; [simpl; lia | discriminate].
    + exists 1, 1. rewrite Hrun. cbn [fst snd firstn map].
      rewrite Hr, Hd. repeat split; try lia; [simpl; lia | discriminate].
    + destruct (IH w') as (n & m & Hr' & Hd' & Hmn & Hnm & Hn & Hend).
      exists (S n), (S m). rewrite Hrun, Hr', Hd', Hr, Hd. cbn [firstn map].
      rewrite <- !app_assoc. repeat split; try lia; [simpl; lia|].
      intros Hnone. simpl. now rewrite Hend.
Qed.

(** X10.  In a sweep the store is never written ahead of the authority:
    the timestamps written are those of the first m chunks and the requests
    those of the first n chunks, with m <= n <= m + 1, so a chunk's
    timestamp is written only after its batch was submitted; and the
    current time is written only after every chunk was submitted and had its
    timestamp written. *)
Theorem SweepAndBlock_writes_follow_requests (items : list BlockedSkylink) (w : World) :
  db_SkylinksToBlock env w = (items, None) ->
  exists n m,
    newReqs w (snd (SweepAndBlock' w)) = map blockOf (firstn n (chunks (sortSlice items)))
    /\ m <= n /\ n <= S m
    /\ (newWrites w (snd (SweepAndBlock' w))
        = map (fun c => latestOf c 0%Z) (firstn m (chunks (sortSlice items)))
        \/ (m = List.length (chunks (sortSlice items))
            /\ exists now,
                newWrites w (snd (SweepAndBlock' w))
                = map (fun c => latestOf c 0%Z) (chunks (sortSlice items)) ++ [now])).
Proof.
  intros Hdb.
  rewrite (SweepAndBlock_pending Error Contains_ErrNoDocumentsFound AddContext env w Hdb).
  destruct (sweepChunks_progress (chunks (sortSlice items)) (add_log LTrace allTrace w))
    as (n & m & Hr & Hd & Hmn & Hnm & Hn & Hend).
  exists n, m.
  destruct (sweepChunks' (chunks (sortSlice items)) (add_log LTrace allTrace w))
    as [[res|] w1]; cbn [fst snd] in *.
  - split; [now apply newReqs_app|]. split; [exact Hmn|]. split; [exact Hnm|].
    left. now apply newWrites_app.
  - specialize (Hend eq_refl).
    destruct (dbSetLatestBlockTimestamp_run env (time_Now env w1) w1)
      as (w2 & Hw & Hd2 & Hr2 & _).
    rewrite Hw.
    assert (Hreq : skydReqs w2
                   = skydReqs w ++ map blockOf (firstn n (chunks (sortSlice items))))
      by (rewrite Hr2; exact Hr).
    assert (Hwr : dbWrites w2
                  = dbWrites w ++ map (fun c => latestOf c 0%Z) (chunks (sortSlice items))
                    ++ [time_Now env w1]).
    { rewrite Hd2, Hd, Hend, firstn_all, <- app_assoc. reflexivity. }
    destruct (notTolerated' (db_SetLatestBlockTimestamp env w1 (time_Now env w1)));
      cbn [fst snd]; (split; [now apply newReqs_app|]);
      (split; [exact Hmn|]); (split; [exact Hnm|]);
      right; (split; [exact Hend|]); exists (time_Now env w1); now apply newWrites_app.
Qed.

(** X11.  A sweep submits nothing of its own: every identifier of every
    request is the skylink of an item of the store's answer. *)
Theorem SweepAndBlock_submits_only_pending (w : World) :
  Forall (fun s => In s (map Skylink (fst (db_SkylinksToBlock env w))))
         (List.concat (newReqs w (snd (SweepAndBlock' w)))).
Proof.
  destruct (SweepAndBlock_reqs Error Contains_ErrNoDocumentsFound AddContext env w) as [n Hn].
  rewrite Hn, concat_map_blockOf. apply Forall_forall. intros s Hs.
  unfold blockOf in Hs. apply in_map_iff in Hs. destruct Hs as (sl & <- & Hin).
  apply filter_In in Hin. destruct Hin as [Hin _].
  apply in_map.
  eapply Permutation_in; [apply sortSlice_perm|].
  rewrite <- (concat_chunks (sortSlice (fst (db_SkylinksToBlock env w)))).
  rewrite <- (firstn_skipn n (chunks (sortSlice (fst (db_SkylinksToBlock env w))))).
  rewrite concat_app. apply in_or_app. now left.
Qed.

(** X12.  When the context is never done and neither the authority nor the
    store answers an error that is not tolerated, a sweep returns nil and
    submits every item of the store's answer that has a skylink exactly as
    often as it occurs there, empty skylinks apart, in as many requests as
    there are chunks. *)
Theorem SweepAndBlock_submits_everything_once (items : list BlockedSkylink) (w : World) :
  db_SkylinksToBlock env w = (items, None) ->
  (forall w0, ctx_Done env w0 = false) ->
  (forall e s, strings_Contains (Error e) noEntriesUpdated = true ->
               strings_Contains (Error (AddContext e s)) noEntriesUpdated = true) ->
  (forall w0 sls e, skyd_BlockSkylinks env w0 sls = Some e ->
                    strings_Contains (Error e) noEntriesUpdated = true) ->
  (forall w0 t e, db_SetLatestBlockTimestamp env w0 t = Some e ->
                  strings_Contains (Error e) noEntriesUpdated = true) ->
  fst (SweepAndBlock' w) = None
  /\ Permutation (List.concat (newReqs w (snd (SweepAndBlock' w)))) (blockOf items)
  /\ List.length (newReqs w (snd (SweepAndBlock' w))) = (List.length items + 99) / 100.
Proof.
  intros Hdb Hctx Hadd Hsk Hset.
  destruct (@SweepAndBlock_tolerates_no_entries_updated
              error Error Contains_ErrNoDocumentsFound AddContext env items w
              Hdb Hctx Hadd Hsk Hset)
    as (w1 & w' & Hrun & Hr & _).
  rewrite Hrun. cbn [fst snd]. split; [reflexivity|]. rewrite Hr. split.
  - rewrite concat_map_blockOf, concat_chunks.
    apply Permutation_filter_map, sortSlice_perm.
  - rewrite length_map, length_chunks.
    now rewrite (Permutation_length (sortSlice_perm items)).
Qed.

(** X13.  The timestamp the loop over a chunk yields, to be written to the
    store after the chunk, is the latest [TimestampAdded] of the items of
    the chunk that have a skylink, or the zero time when there is none
    after the zero time: it bounds them all from above and is that of one of
    them, or is the zero time. *)
Theorem collect_latestTimestamp (chunk : list BlockedSkylink) (w : World)
        (block : list string) (latest : Z) (w' : World) :
  collect env chunk [] 0%Z w = (Some (block, latest), w') ->
  (0 <= latest)%Z
  /\ (forall sl, In sl chunk -> Skylink sl <> EmptyString ->
                 (TimestampAdded sl <= latest)%Z)
  /\ (latest = 0%Z
      \/ exists sl, In sl chunk /\ Skylink sl <> EmptyString
                    /\ latest = TimestampAdded sl).
Proof.
  intros Hrun.
  destruct (collect_value env chunk [] 0%Z w Hrun) as (_ & Hl & _). subst latest.
  destruct (latestOf_bounds chunk 0%Z) as (Hle & Hub & Hatt).
  assert (Hne : forall sl, Skylink sl <> EmptyString <-> nonEmptySkylink sl = true).
  { intros sl. unfold nonEmptySkylink.
    destruct (String.eqb_spec (Skylink sl) EmptyString) as [Heq|Hneq];
      simpl; split; intros H; congruence. }
  split; [exact Hle|]. split.
  - intros sl Hin Hs. apply Hub; [exact Hin | now apply Hne].
  - destruct Hatt as [Heq | (sl & Hin & Hs & Heq)]; [now left|].
    right. exists sl. split; [exact Hin|]. split; [now apply Hne | exact Heq].
Qed.

Lemma afterSweep_sleep (err : option error) (st : LoopState) :
  errorsInBounds st -> sleepInBounds (afterSweep' err st).
Proof.
  intros Hb.
  assert (Hscan : sleepInBounds (mkLoopState (sleepBetweenScans release) 0)).
  { unfold sleepInBounds, sleepBetweenScans, Minute, Second, Millisecond.
    destruct release; simpl; lia. }
  destruct err as [e|]; [|exact Hscan].
  destruct (Contains_ErrNoDocumentsFound e) eqn:Hnd.
  - unfold afterSweep, errors_Contains_NoDocs. rewrite Hnd. exact Hscan.
  - destruct (@afterSweep_error error Contains_ErrNoDocumentsFound release e st Hnd Hb)
      as [_ Hs].
    unfold sleepInBounds. rewrite Hs.
    unfold errorsInBounds, sleepOnErrSteps, sleepOnErrStep, Second, Millisecond in *. lia.
Qed.

Lemma loopTurns_sleep (n : nat) :
  forall st w,
    errorsInBounds st -> sleepInBounds st ->
    sleepInBounds (fst (fst (loopTurns' n st w))).
Proof.
  induction n as [|n IH]; intros st w Hb Hs; [exact Hs|].
  simpl. unfold bind at 1.
  destruct (loopTurn_run Error Contains_ErrNoDocumentsFound AddContext release env st w)
    as [[_ Hret] | [_ [w' [Hrun _]]]].
  - destruct (loopTurn' st w) as [[st'|] w1]; simpl in Hret; [discriminate | exact Hs].
  - rewrite Hrun. apply IH; [now apply afterSweep_bounds | now apply afterSweep_sleep].
Qed.

(** X14.  The loop of [Start] never asks for a negative sleep nor for one
    longer than a minute: after any number of turns, in any environment and
    any build, the sleep before the next sweep is between 0 and 60
    seconds. *)
Theorem Start_sleep_within_a_minute (n : nat) (w : World) :
  (0 <= sleepLength (fst (fst (Start' n w))) <= 60 * Second)%Z.
Proof.
  apply loopTurns_sleep.
  - unfold errorsInBounds, initialLoopState, sleepOnErrSteps. simpl. lia.
  - unfold sleepInBounds, initialLoopState, Second, Millisecond. simpl. lia.
Qed.

(** *** The lock is not kept *)

Lemma keepsUnlocked_ret {A} (a : A) : keepsUnlocked (ret a).
Proof. intros w H. exact H. Qed.

Lemma keepsUnlocked_bind {A B} (m : M A) (k : A -> M B) :
  keepsUnlocked m -> (forall a, keepsUnlocked (k a)) -> keepsUnlocked (bind m k).
Proof.
  intros Hm Hk w Hw. unfold bind.
  specialize (Hm w Hw). destruct (m w) as [a w1]. now apply Hk.
Qed.

Lemma keepsUnlocked_logf (l : Level) (s : string) : keepsUnlocked (logf l s).
Proof. intros w H. exact H. Qed.

Lemma keepsUnlocked_purger (sls : list string) :
  (forall w0, os_Remove env w0 = None) -> keepsUnlocked (purger sls).
Proof.
  intros Hrm w Hw. rewrite purger_steps.
  destruct (acquireLock_trace env 3 None w) as (f & _ & _ & _ & Hcase).
  destruct (acquireLock env 3 None w) as [[e|] w1]; cbn [fst snd] in *.
  - destruct Hcase as [[Hr _] | (_ & _ & _ & Hd)]; [discriminate | congruence].
  - destruct (os_OpenFile env w1); cbn [snd];
      apply (releaseLock_run env); apply Hrm.
Qed.

Lemma keepsUnlocked_blockSkylinks (sls : list string) :
  (forall w0, os_Remove env w0 = None) -> keepsUnlocked (blockSkylinks' sls).
Proof.
  intros Hrm. unfold blockSkylinks.
  apply keepsUnlocked_bind; [now apply keepsUnlocked_purger|]. intros err.
  apply keepsUnlocked_bind.
  - destruct err; [apply keepsUnlocked_logf | apply keepsUnlocked_ret].
  - intros _. apply keepsUnlocked_bind; [intros w H; exact H|].
    intros [e|]; apply keepsUnlocked_ret.
Qed.

Lemma keepsUnlocked_collect (chunk : list BlockedSkylink) :
  forall block latest, keepsUnlocked (collect env chunk block latest).
Proof.
  induction chunk as [|sl rest IH]; intros block latest; simpl.
  - apply keepsUnlocked_ret.
  - apply keepsUnlocked_bind; [intros w H; exact H|].
    intros [|]; [apply keepsUnlocked_ret|].
    destruct (String.eqb (Skylink sl) EmptyString); [|apply IH].
    apply keepsUnlocked_bind; [apply keepsUnlocked_logf | intros _; apply IH].
Qed.

Lemma keepsUnlocked_dbSet (t : Z) : keepsUnlocked (dbSetLatestBlockTimestamp env t).
Proof.
  intros w H. unfold dbSetLatestBlockTimestamp.
  destruct (db_SetLatestBlockTimestamp env w t); exact H.
Qed.

Lemma keepsUnlocked_sweepChunks (chs : list (list BlockedSkylink)) :
  (forall w0, os_Remove env w0 = None) -> keepsUnlocked (sweepChunks' chs).
Proof.
  intros Hrm. induction chs as [|chunk rest IH]; simpl.
  - apply keepsUnlocked_ret.
  - apply keepsUnlocked_bind; [apply keepsUnlocked_logf|]. intros _.
    apply keepsUnlocked_bind; [apply keepsUnlocked_collect|].
    intros [[block latest]|]; [|apply keepsUnlocked_ret].
    apply keepsUnlocked_bind; [now apply keepsUnlocked_blockSkylinks|]. intros err.
    destruct (notTolerated' err).
    + apply keepsUnlocked_bind; [apply keepsUnlocked_logf | intros _; apply keepsUnlocked_ret].
    + apply keepsUnlocked_bind; [apply keepsUnlocked_dbSet|]. intros err'.
      destruct (notTolerated' err'); [|exact IH].
      apply keepsUnlocked_bind; [apply keepsUnlocked_logf | intros _; apply keepsUnlocked_ret].
Qed.

Lemma keepsUnlocked_SweepAndBlock :
  (forall w0, os_Remove env w0 = None) -> keepsUnlocked SweepAndBlock'.
Proof.
  intros Hrm. unfold SweepAndBlock.
  apply keepsUnlocked_bind; [intros w H; exact H|]. intros [items err].
  destruct (errors_Contains_NoDocs Contains_ErrNoDocumentsFound err).
  - apply keepsUnlocked_bind; [intros w H; exact H | intros now; apply keepsUnlocked_dbSet].
  - destruct err as [e|]; [apply keepsUnlocked_ret|].
    apply keepsUnlocked_bind; [apply keepsUnlocked_logf|]. intros _.
    apply keepsUnlocked_bind; [now apply keepsUnlocked_sweepChunks|].
    intros [res|]; [apply keepsUnlocked_ret|].
    apply keepsUnlocked_bind; [intros w H; exact H|]. intros now.
    apply keepsUnlocked_bind; [apply keepsUnlocked_dbSet|]. intros err.
    destruct (notTolerated' err); [|apply keepsUnlocked_ret].
    apply keepsUnlocked_bind; [apply keepsUnlocked_logf | intros _; apply keepsUnlocked_ret].
Qed.

Lemma keepsUnlocked_loopTurns (n : nat) :
  (forall w0, os_Remove env w0 = None) -> forall st, keepsUnlocked (loopTurns' n st).
Proof.
  intros Hrm. induction n as [|n IH]; intros st; simpl.
  - apply keepsUnlocked_ret.
  - apply keepsUnlocked_bind.
    + unfold loopTurn.
      apply keepsUnlocked_bind; [intros w H; exact H|]. intros [|]; [apply keepsUnlocked_ret|].
      apply keepsUnlocked_bind; [intros w H; exact H|]. intros _.
      apply keepsUnlocked_bind; [now apply keepsUnlocked_SweepAndBlock|]. intros err.
      apply keepsUnlocked_bind; [|intros _; apply keepsUnlocked_ret].
      destruct err; apply keepsUnlocked_logf.
    + intros [st'|]; [apply IH | apply keepsUnlocked_ret].
Qed.

(** X15.  The lock is not kept.  When [os.Remove] does not fail and the
    process does not hold the lock directory, it does not hold it after a
    sweep, nor after any number of turns of the loop of [Start], whatever
    the store, the authority and the rest of the file system answer. *)
Theorem lock_not_kept (n : nat) (w : World) :
  (forall w0, os_Remove env w0 = None) ->
  lockDir w = false ->
  lockDir (snd (SweepAndBlock' w)) = false
  /\ lockDir (snd (Start' n w)) = false.
Proof.
  intros Hrm Hw. split.
  - now apply keepsUnlocked_SweepAndBlock.
  - now apply keepsUnlocked_loopTurns.
Qed.

End Sweeps.

(* ------------------------------------------------------------------ *)
(** ** Beyond the claims: instances *)

Lemma strings_Contains_app (p s substr : string) :
  strings_Contains s substr = true -> strings_Contains (p ++ s) substr = true.
Proof.
  intros H. induction p as [|c p IH]; [exact H|].
  cbn [String.append strings_Contains]. rewrite IH.
  match goal with
  | |- (if ?b then _ else _) = _ => destruct b
  end; reflexivity.
Qed.

Lemma Mock_AddContext_keeps (e : Mock.error) (s : string) :
  strings_Contains (Mock.Error e) noEntriesUpdated = true ->
  strings_Contains (Mock.Error (Mock.AddContext e s)) noEntriesUpdated = true.
Proof.
  intros H. unfold Mock.AddContext, Mock.Error in *.
  rewrite <- string_app_assoc. now apply strings_Contains_app.
Qed.

(** X3, an instance: the consumer holds the lock, the list holds a line. *)
Lemma purger_lock_failure_witness :
  let w := Mock.world 0 (Some ("old" ++ newline)%string) in
  let r := Mock.purge Scenario.lockedOut ["a"] w in
  fst r = Some "failed to acquire nginx lock: mkdir: file exists"
  /\ newCalls w (snd r) = [SysMkdir; SysMkdir; SysMkdir]
  /\ newSleeps w (snd r) = [Second; Second; Second]
  /\ newLogs w (snd r) = repeat (LWarn, lockWarning) 3
  /\ listFile (snd r) = Some ("old" ++ newline)%string
  /\ lockDir (snd r) = false.
Proof.
  apply (@purger_lock_failure Mock.error Mock.AddContext Scenario.lockedOut
           "mkdir: file exists" ["a"] (Mock.world 0 (Some ("old" ++ newline)%string))).
  intros w0. reflexivity.
Defined.

(** X4, an instance: one identifier over a list of two lines. *)
Lemma purger_success_content_witness :
  let old := ("old1" ++ newline ++ "old2" ++ newline)%string in
  let w := Mock.world 0 (Some old) in
  listFile (snd (Mock.purge (Mock.env ([], None) None 0) ["new"] w))
  = Some (joinLines (purgerLines ["new"])
          ++ dropString (String.length (joinLines (purgerLines ["new"]))) old)%string.
Proof.
  apply (@purger_success_content Mock.error Mock.AddContext (Mock.env ([], None) None 0)
           ["new"] (Mock.world 0 (Some ("old1" ++ newline ++ "old2" ++ newline)%string))).
  reflexivity.
Defined.

(** X6, an instance: the store is down. *)
Lemma SweepAndBlock_store_failure_witness :
  Mock.sweep ([], Some "connection refused") None 0 (Mock.world 7 None)
  = (Some "connection refused", Mock.world 7 None).
Proof.
  apply (@SweepAndBlock_store_failure
           Mock.error Mock.Error Mock.Contains_ErrNoDocumentsFound Mock.AddContext
           (Mock.env ([], Some "connection refused") None 0) [] "connection refused"
           (Mock.world 7 None)); reflexivity.
Defined.

(** X7, an instance: three items, the context done from the start. *)
Lemma SweepAndBlock_cancelled_witness :
  let w := Mock.world 7 None in
  let r := Scenario.sweepIn (Scenario.cancelled Scenario.three) w in
  fst r = None
  /\ newReqs w (snd r) = []
  /\ newWrites w (snd r) = []
  /\ newCalls w (snd r) = []
  /\ checkpoint (snd r) = 7%Z.
Proof.
  apply (@SweepAndBlock_cancelled
           Mock.error Mock.Error Mock.Contains_ErrNoDocumentsFound Mock.AddContext
           (Scenario.cancelled Scenario.three) Scenario.three (Mock.world 7 None)).
  - reflexivity.
  - discriminate.
  - reflexivity.
Defined.

(** X8, an instance: an empty answer, the clock at 1000. *)
Lemma SweepAndBlock_empty_list_witness :
  let w := Mock.world 7 None in
  let r := Mock.sweep ([], None) None 1000 w in
  newReqs w (snd r) = []
  /\ newWrites w (snd r) = [1000%Z]
  /\ newCalls w (snd r) = []
  /\ fst r = None.
Proof.
  apply (@SweepAndBlock_empty_list
           Mock.error Mock.Error Mock.Contains_ErrNoDocumentsFound Mock.AddContext
           (Mock.env ([], None) None 1000) (Mock.world 7 None)).
  reflexivity.
Defined.

(** X10, an instance: the sixteen items, the tenth rejected. *)
Lemma SweepAndBlock_writes_follow_requests_witness :
  let w := Mock.world 0 None in
  let r := Mock.sweep (Mock.sixteen, None) None 1000 w in
  exists n m,
    newReqs w (snd r) = map blockOf (firstn n (chunks (sortSlice Mock.sixteen)))
    /\ m <= n /\ n <= S m
    /\ (newWrites w (snd r)
        = map (fun c => latestOf c 0%Z) (firstn m (chunks (sortSlice Mock.sixteen)))
        \/ (m = List.length (chunks (sortSlice Mock.sixteen))
            /\ exists now,
                newWrites w (snd r)
                = map (fun c => latestOf c 0%Z) (chunks (sortSlice Mock.sixteen)) ++ [now])).
Proof.
  apply (@SweepAndBlock_writes_follow_requests
           Mock.error Mock.Error Mock.Contains_ErrNoDocumentsFound Mock.AddContext
           (Mock.env (Mock.sixteen, None) None 1000) Mock.sixteen (Mock.world 0 None)).
  reflexivity.
Defined.

(** X12, an instance: three items, one without skylink, an authority and
    a store that answer "no entries updated". *)
Lemma SweepAndBlock_submits_everything_once_witness :
  let w := Mock.world 0 None in
  let r := Scenario.sweepIn (Scenario.nothingUpdated Scenario.three 1000) w in
  fst r = None
  /\ Permutation (List.concat (newReqs w (snd r))) (blockOf Scenario.three)
  /\ List.length (newReqs w (snd r)) = (List.length Scenario.three + 99) / 100.
Proof.
  apply (@SweepAndBlock_submits_everything_once
           Mock.error Mock.Error Mock.Contains_ErrNoDocumentsFound Mock.AddContext
           (Scenario.nothingUpdated Scenario.three 1000) Scenario.three (Mock.world 0 None)).
  - reflexivity.
  - intros w0. reflexivity.
  - exact Mock_AddContext_keeps.
  - intros w0 sls e H. inversion H. reflexivity.
  - intros w0 t e H. inversion H. reflexivity.
Defined.

(** X13, an instance: the three items, out of order. *)
Lemma collect_latestTimestamp_witness :
  let env := Mock.env ([], None) None 0 in
  let w := Mock.world 0 None in
  collect env Scenario.three [] 0%Z w
  = (Some (["d"; "b"], 3%Z),
     add_poll (add_poll (add_log LWarn emptySkylinkWarning (add_poll w))))
  /\ (0 <= 3)%Z
  /\ (forall sl, In sl Scenario.three -> Skylink sl <> EmptyString ->
                 (TimestampAdded sl <= 3)%Z)
  /\ (3%Z = 0%Z
      \/ exists sl, In sl Scenario.three /\ Skylink sl <> EmptyString
                    /\ 3%Z = TimestampAdded sl).
Proof.
  split; [reflexivity|].
  apply (@collect_latestTimestamp Mock.error (Mock.env ([], None) None 0) Scenario.three
           (Mock.world 0 None) ["d"; "b"] 3%Z
           (add_poll (add_poll (add_log LWarn emptySkylinkWarning
                                        (add_poll (Mock.world 0 None)))))).
  reflexivity.
Defined.

(** X15, an instance: two turns over the sixteen items. *)
Lemma lock_not_kept_witness :
  lockDir (snd (SweepAndBlock Mock.Error Mock.Contains_ErrNoDocumentsFound Mock.AddContext
                              (Mock.env (Mock.sixteen, None) None 1000)
                              (Mock.world 0 None))) = false
  /\ lockDir (snd (Start Mock.Error Mock.Contains_ErrNoDocumentsFound Mock.AddContext
                         Standard (Mock.env (Mock.sixteen, None) None 1000) 2
                         (Mock.world 0 None))) = false.
Proof.
  refine (@lock_not_kept
            Mock.error Mock.Error Mock.Contains_ErrNoDocumentsFound Mock.AddContext
            Standard (Mock.env (Mock.sixteen, None) None 1000) 2 (Mock.world 0 None)
            (fun w0 => eq_refl) eq_refl).
Defined.
